(** * Heart-rate estimation from tri-axial IMU samples (sol_b.py)

    A shallow embedding of the numeric pipeline of [sol_b.py]:
    [calculate_magnitude], [butter_bandpass], [apply_filter],
    [stft_analysis], [calculate_heart_rate] and the reporting step of the
    [__main__] block.

    Conventions.
    - Python floats and numpy float64 values are the real numbers [R];
      rounding, overflow, infinities and NaN are outside the model.
    - A one-dimensional numpy array is a [list R]; a complex array is a
      list of pairs (real part, imaginary part).
    - A Python call that may raise returns a [result]: [Ok v] or
      [Raise e], with [e] the class of the exception.
    - The numpy and scipy routines the script calls ([np.hamming],
      [np.argmax], [fft], [fftfreq], [lfilter], the argument checks of
      [butter], array broadcasting) are written out from their reference
      documentation.  The Butterworth coefficient computation itself is a
      parameter of the development. *)

From Stdlib Require Import Reals Lra Lia List ZArith Bool Arith.
From Stdlib Require String Ascii.
Import ListNotations.

Open Scope R_scope.

(** ** Exceptions and results *)

Inductive exn : Type :=
| ValueError
| ZeroDivisionError
| IndexError.

Inductive result (A : Type) : Type :=
| Ok (v : A)
| Raise (e : exn).

Arguments Ok {A} v.
Arguments Raise {A} e.

Definition bind {A B : Type} (r : result A) (k : A -> result B) : result B :=
  match r with
  | Ok v => k v
  | Raise e => Raise e
  end.

Notation "x <- r ;; k" := (bind r (fun x => k))
  (at level 61, r at next level, right associativity).
Notation "' p <- r ;; k" := (bind r (fun p => k))
  (at level 61, p pattern, r at next level, right associativity).

Definition succeeds {A : Type} (r : result A) : Prop := exists v, r = Ok v.
Definition fails {A : Type} (r : result A) : Prop := exists e, r = Raise e.

(** ** Python and numpy primitives *)

(** [a / b] on Python floats. *)
Definition pydiv (a b : R) : result R :=
  if Req_dec_T b 0 then Raise ZeroDivisionError else Ok (a / b).

(** [l[i]] for a non-negative index. *)
Definition pyindex {A : Type} (l : list A) (i : nat) : result A :=
  match nth_error l i with
  | Some v => Ok v
  | None => Raise IndexError
  end.

Fixpoint map2 {A B C : Type} (f : A -> B -> C) (u : list A) (v : list B) : list C :=
  match u, v with
  | a :: u', b :: v' => f a b :: map2 f u' v'
  | _, _ => []
  end.

(** A binary ufunc on two one-dimensional arrays: equal lengths combine
    elementwise, a length-1 operand is stretched, anything else is a
    broadcasting error. *)
Definition broadcast2 (f : R -> R -> R) (u v : list R) : result (list R) :=
  if Nat.eqb (length u) (length v) then Ok (map2 f u v)
  else if Nat.eqb (length u) 1 then Ok (map (fun b => f (hd 0 u) b) v)
  else if Nat.eqb (length v) 1 then Ok (map (fun a => f a (hd 0 v)) u)
  else Raise ValueError.

(** Two array lengths that cannot be broadcast together. *)
Definition incompatible (m n : nat) : Prop := m <> n /\ m <> 1%nat /\ n <> 1%nat.

Definition np_add : list R -> list R -> result (list R) := broadcast2 Rplus.
Definition np_mul : list R -> list R -> result (list R) := broadcast2 Rmult.
Definition np_square (u : list R) : list R := map (fun a => a ^ 2) u.
Definition np_sqrt (u : list R) : list R := map sqrt u.

(** ** calculate_magnitude *)

Definition calculate_magnitude (x y z : list R) : result (list R) :=
  xy <- np_add (np_square x) (np_square y) ;;
  xyz <- np_add xy (np_square z) ;;
  Ok (np_sqrt xyz).

(** ** calculate_heart_rate *)

Definition calculate_heart_rate (dominant_frequency : R) : R :=
  dominant_frequency * 60.

(** ** butter_bandpass *)

Definition Rltb (a b : R) : bool := if Rlt_dec a b then true else false.
Definition Rleb (a b : R) : bool := if Rle_dec a b then true else false.

(** Filter coefficients: the feed-forward sequence [b] and the feedback
    sequence [a]. *)
Definition coefficients : Type := (list R * list R)%type.

(** The coefficient computation of a digital Butterworth band-pass filter
    of a given order for a band normalised by the Nyquist frequency. *)
Definition butter_design : Type := Z -> R -> R -> coefficients.

(** [scipy.signal.butter(order, [low, high], btype='band')]: the critical
    frequencies of a digital filter must satisfy [0 < low < high < 1] and
    the order must be a non-negative integer; every violation is a
    [ValueError]. *)
Definition butter (design : butter_design) (order : Z) (low high : R)
  : result coefficients :=
  if Rleb low 0 || Rleb high 0 then Raise ValueError
  else if negb (Rltb low high) then Raise ValueError
  else if (order <? 0)%Z then Raise ValueError
  else if Rleb 1 low || Rleb 1 high then Raise ValueError
  else Ok (design order low high).

Definition butter_bandpass (design : butter_design) (cutoff : list R) (fs : R)
  (order : Z) : result coefficients :=
  let nyq := 0.5 * fs in
  c0 <- pyindex cutoff 0 ;;
  low <- pydiv c0 nyq ;;
  c1 <- pyindex cutoff 1 ;;
  high <- pydiv c1 nyq ;;
  butter design order low high.

(** ** apply_filter *)

(** Sum of the products of two sequences, up to the shorter one. *)
Fixpoint dot (c h : list R) : R :=
  match c, h with
  | ck :: c', hk :: h' => ck * hk + dot c' h'
  | _, _ => 0
  end.

(** One left-to-right pass of the difference equation
    [a0*y[n] = b[0]*x[n] + ... + b[M]*x[n-M] - a[1]*y[n-1] - ... - a[K]*y[n-K]].
    [xh] and [yh] hold the inputs and outputs already seen, latest first. *)
Fixpoint lfilter_run (b a_tl : list R) (a0 : R) (xh yh : list R)
  (data : list R) : list R :=
  match data with
  | [] => []
  | x :: rest =>
      let xh' := x :: xh in
      let y := (dot b xh' - dot a_tl yh) / a0 in
      y :: lfilter_run b a_tl a0 xh' (y :: yh) rest
  end.

(** [scipy.signal.lfilter(b, a, x)] on a one-dimensional signal with zero
    initial conditions.  Empty coefficient sequences and a zero leading
    feedback coefficient are rejected.  With a single feedback coefficient
    scipy convolves [b / a[0]] with the signal, and the convolution rejects
    an empty signal; with more feedback coefficients an empty signal gives
    an empty output.  (For the single coefficient [a = [0]] scipy returns
    non-finite values rather than raising; they have no counterpart among
    the reals, and no statement below concerns that case.) *)
Definition lfilter (b a : list R) (x : list R) : result (list R) :=
  match b, a with
  | [], _ => Raise ValueError
  | _, [] => Raise ValueError
  | _, a0 :: a_tl =>
      if Req_dec_T a0 0 then Raise ValueError
      else
        match a_tl, x with
        | [], [] => Raise ValueError
        | _, _ => Ok (lfilter_run b a_tl a0 [] [] x)
        end
  end.

Definition apply_filter (data b a : list R) : result (list R) :=
  lfilter b a data.

(** ** stft_analysis *)

(** [np.arange(start, stop, step)] on integers, for a positive step. *)
Definition arange (start stop step : Z) : list Z :=
  map (fun i => (start + step * Z.of_nat i)%Z)
      (seq 0 (Z.to_nat ((stop - start + step - 1) / step))).

(** [np.hamming(M)]. *)
Definition hamming (M : nat) : list R :=
  match M with
  | O => []
  | S O => [1]
  | _ =>
      map (fun n => 0.54 + 0.46 * cos (PI * IZR n / IZR (Z.of_nat M - 1)))
          (arange (1 - Z.of_nat M) (Z.of_nat M) 2)
  end.

(** Complex numbers as (real part, imaginary part). *)
Definition Cx : Type := (R * R)%type.

Definition Cadd (c d : Cx) : Cx := (fst c + fst d, snd c + snd d).
Definition Cscale (r : R) (c : Cx) : Cx := (r * fst c, r * snd c).
Definition Cexp_i (t : R) : Cx := (cos t, sin t).
Definition Cabs (c : Cx) : R := sqrt (fst c ^ 2 + snd c ^ 2).
Definition Csum (l : list Cx) : Cx := fold_right Cadd (0, 0) l.

(** Bin [k] of the discrete Fourier transform:
    [sum_n x[n] * exp(-2 pi i k n / N)]. *)
Definition dft_bin (x : list R) (k : nat) : Cx :=
  Csum (map2 (fun n xn => Cscale xn (Cexp_i (- (2 * PI * INR k * INR n / INR (length x)))))
             (seq 0 (length x)) x).

(** [scipy.fft.fft] of a real one-dimensional array; an empty array is
    rejected. *)
Definition fft (x : list R) : result (list Cx) :=
  match x with
  | [] => Raise ValueError
  | _ => Ok (map (dft_bin x) (seq 0 (length x)))
  end.

(** [fftfreq(n, d)]: [0, 1, ..., (n-1)//2, -(n//2), ..., -1] scaled by
    [1.0 / (n * d)]. *)
Definition fftfreq (n : nat) (d : R) : result (list R) :=
  val <- pydiv 1 (INR n * d) ;;
  let N := ((Z.of_nat n - 1) / 2 + 1)%Z in
  let p1 := arange 0 N 1 in
  let p2 := arange (- (Z.of_nat n / 2)) 0 1 in
  Ok (map (fun r => IZR r * val) (p1 ++ p2)).

Definition np_abs (l : list Cx) : list R := map Cabs l.

(** The left-to-right scan of [np.argmax]: the running best is replaced
    only by a strictly greater value. *)
Fixpoint argmax_scan (best : nat) (best_v : R) (i : nat) (l : list R) : nat :=
  match l with
  | [] => best
  | v :: t =>
      if Rlt_dec best_v v then argmax_scan i v (S i) t
      else argmax_scan best best_v (S i) t
  end.

(** [np.argmax]; an empty sequence is rejected. *)
Definition np_argmax (l : list R) : result nat :=
  match l with
  | [] => Raise ValueError
  | v :: t => Ok (argmax_scan 0 v 1 t)
  end.

Definition stft_analysis (data : list R) (fs : R) : result R :=
  let N := length data in
  let window := hamming N in
  dw <- np_mul data window ;;
  yf <- fft dw ;;
  d <- pydiv 1 fs ;;
  xf <- fftfreq N d ;;
  let positive_frequencies := firstn (N / 2) xf in
  let magnitudes := np_abs (firstn (N / 2) yf) in
  i <- np_argmax (skipn 1 magnitudes) ;;
  let dominant_frequency_index := (i + 1)%nat in
  pyindex positive_frequencies dominant_frequency_index.


(** ** The script body *)

(** The part of the [__main__] block between loading the samples and
    plotting: the two figures handed to the report lines, or the exception
    the [try] block catches.  The sample rate, band and order are the
    script's constants. *)
Definition main (design : butter_design) (x y z : list R) : result (R * R) :=
  let fs := 100 in
  magnitude <- calculate_magnitude x y z ;;
  let cutoff := [0.5; 3] in
  ' (b, a) <- butter_bandpass design cutoff fs 5 ;;
  filtered_magnitude <- apply_filter magnitude b a ;;
  dominant_frequency <- stft_analysis filtered_magnitude fs ;;
  let heart_rate := calculate_heart_rate dominant_frequency in
  Ok (dominant_frequency, heart_rate / 2).

(** The coefficients of the order-0 filter, which passes its input
    through; a concrete design to run the definitions on. *)
Definition passthrough_design : butter_design := fun _ _ _ => ([1], [1]).

(** The zero-phase alternative to [apply_filter]: a forward pass followed
    by a second pass over the reversed output. *)
Definition forward_backward (data b a : list R) : result (list R) :=
  y1 <- lfilter b a data ;;
  y2 <- lfilter b a (rev y1) ;;
  Ok (rev y2).

(** ** The Spectral Peak Extractor of the specification, in its own words *)

(** The raised-cosine taper [0.54 - 0.46 cos(2 pi i / (N - 1))]. *)
Definition hamming_taper (N i : nat) : R :=
  0.54 - 0.46 * cos (2 * PI * INR i / (INR N - 1)).

(** Sample [i] of the windowed signal. *)
Definition windowed_sample (data : list R) (i : nat) : R :=
  nth i data 0 * hamming_taper (length data) i.

(** [sum_below f n] is [f 0 + ... + f (n - 1)]. *)
Fixpoint sum_below (f : nat -> R) (n : nat) : R :=
  match n with
  | O => 0
  | S m => sum_below f m + f m
  end.

(** Magnitude of bin [k] of the discrete Fourier transform of the windowed
    signal. *)
Definition spectrum_magnitude (data : list R) (k : nat) : R :=
  let N := length data in
  let re := sum_below (fun n => windowed_sample data n * cos (2 * PI * INR k * INR n / INR N)) N in
  let im := sum_below (fun n => windowed_sample data n * sin (2 * PI * INR k * INR n / INR N)) N in
  sqrt (re ^ 2 + im ^ 2).

(** The frequency of bin [k]. *)
Definition bin_frequency (N : nat) (fs : R) (k : nat) : R := INR k * fs / INR N.

(** [k] is an index of the maximum of [mag] over [1 .. N//2 - 1]. *)
Definition peak_index (mag : nat -> R) (N k : nat) : Prop :=
  (1 <= k <= N / 2 - 1)%nat /\
  forall j, (1 <= j <= N / 2 - 1)%nat -> mag j <= mag k.

(** ** load_and_process_data *)

Module Loader.
Import String Ascii.
#[local] Set Warnings "-register-all".

(** What [json.load] returns: [None], a bool, an int, a float, a string, a
    list, or a dict with string keys (its items in insertion order, the
    keys distinct). *)
Inductive pyval : Type :=
| PNone
| PBool (b : bool)
| PInt (n : Z)
| PFloat (r : R)
| PStr (s : string)
| PList (l : list pyval)
| PDict (items : list (string * pyval)).

(** The exceptions of the loader: the three classes the numeric stages
    never raise, and theirs. *)
Inductive load_exn : Type :=
| TypeError
| KeyError
| OverflowError
| Other (e : exn).

Inductive load_result (A : Type) : Type :=
| Done (v : A)
| Fail (e : load_exn).

Arguments Done {A} v.
Arguments Fail {A} e.

Definition load_bind {A B : Type} (r : load_result A) (k : A -> load_result B)
  : load_result B :=
  match r with
  | Done v => k v
  | Fail e => Fail e
  end.

(** A result of the numeric stages, seen from the script. *)
Definition lift {A : Type} (r : result A) : load_result A :=
  match r with
  | Ok v => Done v
  | Raise e => Fail (Other e)
  end.

Definition key_x : string := "x"%string.
Definition key_y : string := "y"%string.
Definition key_z : string := "z"%string.

Fixpoint dict_get (items : list (string * pyval)) (k : string) : option pyval :=
  match items with
  | [] => None
  | (k', v) :: rest => if String.eqb k' k then Some v else dict_get rest k
  end.

(** [v[0]]. *)
Definition getitem_0 (v : pyval) : load_result pyval :=
  match v with
  | PList [] => Fail (Other IndexError)
  | PList (a :: _) => Done a
  | PStr EmptyString => Fail (Other IndexError)
  | PStr (String c _) => Done (PStr (String c EmptyString))
  | PDict _ => Fail KeyError
  | _ => Fail TypeError
  end.

(** The items a [for] loop over [v] visits: the elements of a list, the
    keys of a dict, the characters of a string. *)
Definition iterate (v : pyval) : load_result (list pyval) :=
  match v with
  | PList l => Done l
  | PDict items => Done (map (fun kv => PStr (fst kv)) items)
  | PStr s => Done (map (fun c => PStr (String c EmptyString)) (list_ascii_of_string s))
  | _ => Fail TypeError
  end.

(** [v[k]] for a string key [k]. *)
Definition getitem_key (v : pyval) (k : string) : load_result pyval :=
  match v with
  | PDict items =>
      match dict_get items k with
      | Some a => Done a
      | None => Fail KeyError
      end
  | _ => Fail TypeError
  end.

(** The integers [float] converts are those that round to a finite
    double: the ones of absolute value below [2^1024 - 2^970], the midpoint
    between the largest double and [2^1024]. *)
Definition float_int_bound : Z := (2 ^ 1024 - 2 ^ 970)%Z.

(** [float(v)]; [float_of_str] is the conversion of a string, [None] where
    Python raises [ValueError].  An int beyond the range of the floats
    raises [OverflowError]. *)
Definition pyfloat (float_of_str : string -> option R) (v : pyval) : load_result R :=
  match v with
  | PFloat r => Done r
  | PInt n =>
      if (Z.abs n <? float_int_bound)%Z then Done (IZR n) else Fail OverflowError
  | PBool b => Done (if b then 1 else 0)
  | PStr s =>
      match float_of_str s with
      | Some r => Done r
      | None => Fail (Other ValueError)
      end
  | _ => Fail TypeError
  end.

(** The body of the loop: the three conversions of one sample, in the
    order x, y, z. *)
Definition read_sample (float_of_str : string -> option R) (sample : pyval)
  : load_result (R * R * R) :=
  load_bind (getitem_key sample key_x) (fun vx =>
  load_bind (pyfloat float_of_str vx) (fun fx =>
  load_bind (getitem_key sample key_y) (fun vy =>
  load_bind (pyfloat float_of_str vy) (fun fy =>
  load_bind (getitem_key sample key_z) (fun vz =>
  load_bind (pyfloat float_of_str vz) (fun fz =>
  Done (fx, fy, fz))))))).

(** The loop, with the three lists it appends to. *)
Fixpoint load_loop (float_of_str : string -> option R) (samples : list pyval)
  (x_values y_values z_values : list R) : load_result (list R * list R * list R) :=
  match samples with
  | [] => Done (x_values, y_values, z_values)
  | sample :: rest =>
      load_bind (read_sample float_of_str sample) (fun '(fx, fy, fz) =>
      load_loop float_of_str rest
        (x_values ++ [fx]) (y_values ++ [fy]) (z_values ++ [fz]))
  end.

(** [load_and_process_data], from the decoded document [data] on; opening
    the file and decoding its text are not part of the model. *)
Definition load_and_process_data (float_of_str : string -> option R) (data : pyval)
  : load_result (list R * list R * list R) :=
  load_bind (getitem_0 data) (fun first =>
  load_bind (iterate first) (fun samples =>
  load_loop float_of_str samples [] [] [])).

(** The [try] block of the script on a decoded document: load the three
    channels, then run the numeric stages. *)
Definition script (design : butter_design) (float_of_str : string -> option R)
  (data : pyval) : load_result (R * R) :=
  load_bind (load_and_process_data float_of_str data) (fun '(x, y, z) =>
  lift (main design x y z)).

(** A conversion of strings that reads the one numeral [2.5], to run the
    definitions on. *)
Definition text_2_5 : string := "2.5"%string.

Definition float_of_text_2_5 (s : string) : option R :=
  if String.eqb s text_2_5 then Some 2.5 else None.

End Loader.

(** ** Vocabulary of the further properties *)

(** A signal with every sample multiplied by [c]. *)
Definition scale (c : R) (u : list R) : list R := map (Rmult c) u.

(** Sample [i] of a channel as broadcasting reads it: a one-sample channel
    is constant. *)
Definition channel_at (u : list R) (i : nat) : R :=
  if Nat.eqb (length u) 1 then hd 0 u else nth i u 0.

(** The length three channel lengths broadcast to. *)
Definition broadcast_length (m n : nat) : nat :=
  if Nat.eqb m 1 then n else m.

(** Coefficients the filter accepts: a non-empty [b] and an [a] with a
    non-zero leading term. *)
Definition usable (c : coefficients) : Prop :=
  fst c <> [] /\ exists a0 a_tl, snd c = a0 :: a_tl /\ a0 <> 0.

(** The coefficients the script filters with: the design for its band
    [0.5, 3] at its sample rate 100, of order 5. *)
Definition script_coefficients (design : butter_design) : coefficients :=
  design 5%Z (0.5 / (0.5 * 100)) (3 / (0.5 * 100)).

(** A sample as the data source writes it: a dict with the three readings
    under the keys x, y and z, in any order and among any other keys. *)
Definition sample_of (s : Loader.pyval) (t : R * R * R) : Prop :=
  exists items,
    s = Loader.PDict items /\
    Loader.dict_get items Loader.key_x = Some (Loader.PFloat (fst (fst t))) /\
    Loader.dict_get items Loader.key_y = Some (Loader.PFloat (snd (fst t))) /\
    Loader.dict_get items Loader.key_z = Some (Loader.PFloat (snd t)).

(** A reading that stops the load, as [sample.get(key)] shows it, with the
    exception it raises: a missing key, a reading that is [None], a list
    or a dict, a string that is not a number, an int beyond the floats. *)
Inductive reading_fault (float_of_str : String.string -> option R)
  : option Loader.pyval -> Loader.load_exn -> Prop :=
| fault_missing : reading_fault float_of_str None Loader.KeyError
| fault_none : reading_fault float_of_str (Some Loader.PNone) Loader.TypeError
| fault_list (l : list Loader.pyval) :
    reading_fault float_of_str (Some (Loader.PList l)) Loader.TypeError
| fault_dict (items : list (String.string * Loader.pyval)) :
    reading_fault float_of_str (Some (Loader.PDict items)) Loader.TypeError
| fault_string (s : String.string) :
    float_of_str s = None ->
    reading_fault float_of_str (Some (Loader.PStr s)) (Loader.Other ValueError)
| fault_int (n : Z) :
    (Loader.float_int_bound <= Z.abs n)%Z ->
    reading_fault float_of_str (Some (Loader.PInt n)) Loader.OverflowError.

(** Case analysis on the one-sample tests of [broadcast_length]. *)
Ltac broadcast_cases :=
  unfold broadcast_length;
  repeat match goal with
         | |- context [Nat.eqb (length ?u) 1] =>
             destruct (Nat.eqb_spec (length u) 1); cbn beta iota
         end;
  lia.

(** * Properties *)

(** ** Results *)

Lemma pydiv_nonzero (a b : R) : b <> 0 -> pydiv a b = Ok (a / b).
Proof.
  intros Hb. unfold pydiv. destruct (Req_dec_T b 0) as [E | _].
  - contradiction.
  - reflexivity.
Qed.

Lemma pydiv_zero (a : R) : pydiv a 0 = Raise ZeroDivisionError.
Proof.
  unfold pydiv. destruct (Req_dec_T 0 0) as [_ | N].
  - reflexivity.
  - now elim N.
Qed.

Lemma Rltb_true (a b : R) : Rltb a b = true <-> a < b.
Proof.
  unfold Rltb. destruct (Rlt_dec a b); split; intros; try easy.
Qed.

Lemma Rltb_false (a b : R) : Rltb a b = false <-> b <= a.
Proof.
  unfold Rltb. destruct (Rlt_dec a b); split; intros; try easy; lra.
Qed.

Lemma Rleb_true (a b : R) : Rleb a b = true <-> a <= b.
Proof.
  unfold Rleb. destruct (Rle_dec a b); split; intros; try easy.
Qed.

Lemma Rleb_false (a b : R) : Rleb a b = false <-> b < a.
Proof.
  unfold Rleb. destruct (Rle_dec a b); split; intros; try easy; lra.
Qed.

(** ** Elementwise operations *)

Lemma length_map2 {A B C : Type} (f : A -> B -> C) (u : list A) (v : list B) :
  length (map2 f u v) = Nat.min (length u) (length v).
Proof.
  revert v. induction u as [| a u IH]; intros [| b v]; simpl; auto.
Qed.

Lemma nth_map2 {A B C : Type} (f : A -> B -> C) (u : list A) (v : list B)
  (i : nat) (da : A) (db : B) (dc : C) :
  (i < length u)%nat -> (i < length v)%nat ->
  nth i (map2 f u v) dc = f (nth i u da) (nth i v db).
Proof.
  revert v i. induction u as [| a u IH]; intros [| b v] [| i]; simpl; intros Hu Hv;
    try lia; auto.
  apply IH; lia.
Qed.

Lemma broadcast2_same (f : R -> R -> R) (u v : list R) :
  length u = length v -> broadcast2 f u v = Ok (map2 f u v).
Proof.
  intros E. unfold broadcast2. rewrite E, Nat.eqb_refl. reflexivity.
Qed.

Lemma broadcast2_cases (f : R -> R -> R) (u v : list R) :
  (incompatible (length u) (length v) /\ broadcast2 f u v = Raise ValueError) \/
  (~ incompatible (length u) (length v) /\
   exists w, broadcast2 f u v = Ok w /\
             length w = if Nat.eqb (length u) 1 then length v else length u).
Proof.
  unfold broadcast2, incompatible.
  destruct (Nat.eqb_spec (length u) (length v)) as [E | NE].
  - right. split; [lia |]. eexists. split; [reflexivity |].
    rewrite length_map2, E, Nat.min_id.
    destruct (Nat.eqb_spec (length v) 1); lia.
  - destruct (Nat.eqb_spec (length u) 1) as [E1 | NE1].
    + right. split; [lia |]. eexists. split; [reflexivity |]. now rewrite length_map.
    + destruct (Nat.eqb_spec (length v) 1) as [E2 | NE2].
      * right. split; [lia |]. eexists. split; [reflexivity |]. now rewrite length_map.
      * left. split; [lia | reflexivity].
Qed.

Lemma nth_map_lt {A B : Type} (f : A -> B) (u : list A) (i : nat) (da : A) (db : B) :
  (i < length u)%nat -> nth i (map f u) db = f (nth i u da).
Proof.
  revert i. induction u as [| a u IH]; intros [| i]; simpl; intros H; try lia; auto.
  apply IH. lia.
Qed.

Lemma length_np_square (u : list R) : length (np_square u) = length u.
Proof. apply length_map. Qed.

Lemma nth_np_square (u : list R) (i : nat) :
  (i < length u)%nat -> nth i (np_square u) 0 = nth i u 0 ^ 2.
Proof.
  intros H. unfold np_square. now rewrite (nth_map_lt _ _ _ 0).
Qed.

Lemma calculate_magnitude_same (x y z : list R) :
  length x = length y -> length y = length z ->
  calculate_magnitude x y z =
  Ok (np_sqrt (map2 Rplus (map2 Rplus (np_square x) (np_square y)) (np_square z))).
Proof.
  intros Exy Eyz. unfold calculate_magnitude, np_add.
  rewrite broadcast2_same by (rewrite !length_np_square; exact Exy).
  cbn [bind].
  rewrite broadcast2_same; [reflexivity |].
  rewrite length_map2, !length_np_square. lia.
Qed.

(** C2.  For three channels of the same length [N >= 1] the magnitude
    reducer returns a signal [m] of length [N] with
    [m[i] = sqrt (x[i]^2 + y[i]^2 + z[i]^2)] at every index, and every
    element of [m] is non-negative. *)
Theorem calculate_magnitude_spec (x y z : list R) :
  length x = length y -> length y = length z -> (1 <= length x)%nat ->
  exists m,
    calculate_magnitude x y z = Ok m /\
    length m = length x /\
    (forall i, (i < length x)%nat ->
       nth i m 0 = sqrt (nth i x 0 ^ 2 + nth i y 0 ^ 2 + nth i z 0 ^ 2)) /\
    Forall (fun v => 0 <= v) m.
Proof.
  intros Exy Eyz _.
  eexists. split; [apply calculate_magnitude_same; assumption |].
  assert (L : length (map2 Rplus (map2 Rplus (np_square x) (np_square y)) (np_square z))
              = length x).
  { rewrite !length_map2, !length_np_square. lia. }
  split; [| split].
  - unfold np_sqrt. now rewrite length_map.
  - intros i Hi. unfold np_sqrt.
    rewrite (nth_map_lt _ _ _ 0) by (rewrite L; exact Hi). f_equal.
    rewrite (nth_map2 _ _ _ _ 0 0)
      by (rewrite ?length_map2, ?length_np_square; lia).
    rewrite (nth_map2 _ _ _ _ 0 0) by (rewrite ?length_np_square; lia).
    rewrite !nth_np_square by lia. reflexivity.
  - unfold np_sqrt. apply Forall_forall. intros v Hv.
    apply in_map_iff in Hv. destruct Hv as [s [<- _]]. apply sqrt_pos.
Qed.

Lemma calculate_magnitude_spec_witness :
  exists m,
    calculate_magnitude [3; 0] [4; 0] [0; 1] = Ok m /\
    length m = length [3; 0] /\
    (forall i, (i < length [3; 0])%nat ->
       nth i m 0 = sqrt (nth i [3; 0] 0 ^ 2 + nth i [4; 0] 0 ^ 2 + nth i [0; 1] 0 ^ 2)) /\
    Forall (fun v => 0 <= v) m.
Proof.
  apply (calculate_magnitude_spec [3; 0] [4; 0] [0; 1]).
  - reflexivity.
  - reflexivity.
  - simpl. lia.
Defined.

(** C4, counterexample.  Three empty channels do not have a common length
    [N >= 1], and channels of lengths 2, 1 and 1 do not have identical
    lengths; in both cases the reducer returns a signal instead of
    failing. *)
Lemma calculate_magnitude_no_shape_error :
  ~ (1 <= length (@nil R))%nat /\
  calculate_magnitude [] [] [] = Ok [] /\
  length [3; 4] <> length [0] /\
  calculate_magnitude [3; 4] [0] [0] =
    Ok [sqrt (3 ^ 2 + 0 ^ 2 + 0 ^ 2); sqrt (4 ^ 2 + 0 ^ 2 + 0 ^ 2)].
Proof.
  split; [simpl; lia |]. split; [reflexivity |]. split; [simpl; lia |].
  reflexivity.
Qed.

(** C4, as the code has it.  The magnitude reducer fails exactly when two
    of the three channel lengths differ and neither of the two is 1, and
    the failure is numpy's broadcasting [ValueError]; in every other case,
    empty channels included, it returns a signal. *)
Theorem calculate_magnitude_fails_iff (x y z : list R) :
  (fails (calculate_magnitude x y z) <->
   incompatible (length x) (length y) \/
   incompatible (length x) (length z) \/
   incompatible (length y) (length z)) /\
  (fails (calculate_magnitude x y z) ->
   calculate_magnitude x y z = Raise ValueError) /\
  (~ fails (calculate_magnitude x y z) -> succeeds (calculate_magnitude x y z)).
Proof.
  unfold calculate_magnitude, np_add, fails, succeeds.
  destruct (broadcast2_cases Rplus (np_square x) (np_square y))
    as [[I E] | [NI [w [E L]]]]; rewrite E; cbn [bind];
    rewrite !length_np_square in *.
  - split; [| split].
    + split; [intros _; now left | intros _; now eexists].
    + reflexivity.
    + intros H. exfalso. apply H. now eexists.
  - destruct (broadcast2_cases Rplus w (np_square z))
      as [[I2 E2] | [NI2 [w2 [E2 L2]]]]; rewrite E2; cbn [bind];
      rewrite !length_np_square in *; rewrite L in *;
      unfold incompatible in *.
    + split; [| split].
      * split; [intros _ | intros _; now eexists].
        destruct (Nat.eqb_spec (length x) 1); lia.
      * reflexivity.
      * intros H. exfalso. apply H. now eexists.
    + split; [| split].
      * split; [intros [e He]; discriminate |].
        intros D. exfalso.
        destruct (Nat.eqb_spec (length x) 1); lia.
      * intros [e He]. discriminate.
      * intros _. now eexists.
Qed.

Lemma calculate_magnitude_fails_iff_witness :
  calculate_magnitude [1; 2] [1; 2; 3] [1; 2] = Raise ValueError.
Proof.
  apply (calculate_magnitude_fails_iff [1; 2] [1; 2; 3] [1; 2]).
  apply (calculate_magnitude_fails_iff [1; 2] [1; 2; 3] [1; 2]).
  left. unfold incompatible. simpl. lia.
Defined.

(** C7.  The rate converter is defined on every real, negative ones
    included, with [convert f = f * 60]; [convert 0 = 0],
    [convert 1 = 60], and it is linear. *)
Theorem calculate_heart_rate_linear :
  (forall f, calculate_heart_rate f = f * 60) /\
  calculate_heart_rate 0 = 0 /\
  calculate_heart_rate 1 = 60 /\
  calculate_heart_rate (-1) = -60 /\
  (forall f g, calculate_heart_rate (f + g) =
               calculate_heart_rate f + calculate_heart_rate g) /\
  (forall c f, calculate_heart_rate (c * f) = c * calculate_heart_rate f).
Proof.
  unfold calculate_heart_rate. repeat split; intros; lra.
Qed.

(** ** Filter design *)

Lemma butter_valid (design : butter_design) (order : Z) (low high : R) :
  0 < low -> low < high -> high < 1 -> (0 <= order)%Z ->
  butter design order low high = Ok (design order low high).
Proof.
  intros H0 H1 H2 Ho. unfold butter.
  assert (E1 : Rleb low 0 = false) by (apply Rleb_false; lra).
  assert (E2 : Rleb high 0 = false) by (apply Rleb_false; lra).
  assert (E3 : Rltb low high = true) by (apply Rltb_true; lra).
  assert (E4 : (order <? 0)%Z = false) by (apply Z.ltb_ge; lia).
  assert (E5 : Rleb 1 low = false) by (apply Rleb_false; lra).
  assert (E6 : Rleb 1 high = false) by (apply Rleb_false; lra).
  rewrite E1, E2, E3, E4, E5, E6. reflexivity.
Qed.

Lemma butter_invalid (design : butter_design) (order : Z) (low high : R) :
  ~ (0 < low /\ low < high /\ high < 1 /\ (0 <= order)%Z) ->
  butter design order low high = Raise ValueError.
Proof.
  intros H. unfold butter.
  destruct (Rleb low 0) eqn:E1; [reflexivity |].
  destruct (Rleb high 0) eqn:E2; [reflexivity |].
  destruct (Rltb low high) eqn:E3; [| reflexivity].
  destruct (order <? 0)%Z eqn:E4; [reflexivity |].
  destruct (Rleb 1 low) eqn:E5; [reflexivity |].
  destruct (Rleb 1 high) eqn:E6; [reflexivity |].
  exfalso. apply H.
  apply Rleb_false in E1, E2, E5, E6. apply Rltb_true in E3. apply Z.ltb_ge in E4.
  repeat split; assumption.
Qed.

Lemma butter_bandpass_nonzero (design : butter_design) (low high fs : R) (order : Z) :
  fs <> 0 ->
  butter_bandpass design [low; high] fs order =
  butter design order (low / (fs / 2)) (high / (fs / 2)).
Proof.
  intros Hfs. unfold butter_bandpass. cbn [pyindex nth_error bind].
  replace (0.5 * fs) with (fs / 2) by lra.
  rewrite !pydiv_nonzero by lra. reflexivity.
Qed.

Lemma butter_bandpass_zero_rate (design : butter_design) (low high : R) (order : Z) :
  butter_bandpass design [low; high] 0 order = Raise ZeroDivisionError.
Proof.
  unfold butter_bandpass. cbn [pyindex nth_error bind].
  replace (0.5 * 0) with 0 by lra.
  rewrite pydiv_zero. reflexivity.
Qed.

Lemma normalised_band (low high fs : R) :
  0 < fs ->
  (0 < low / (fs / 2) /\ low / (fs / 2) < high / (fs / 2) /\ high / (fs / 2) < 1) <->
  (0 < low /\ low < high /\ high < fs / 2).
Proof.
  intros Hfs.
  assert (Hn : 0 < fs / 2) by lra.
  assert (El : low = low / (fs / 2) * (fs / 2)) by (field; lra).
  assert (Eh : high = high / (fs / 2) * (fs / 2)) by (field; lra).
  set (l := low / (fs / 2)) in *. set (h := high / (fs / 2)) in *.
  set (n := fs / 2) in *.
  split.
  - intros [H1 [H2 H3]]. rewrite El, Eh. repeat split; nra.
  - intros [H1 [H2 H3]]. rewrite El, Eh in *. repeat split; nra.
Qed.

(** C5, counterexample.  With a negative sample rate and a negative band
    the constraint [0 < low_hz] is violated, and with order 0 the
    constraint [order >= 1] is violated; in both cases the design returns
    coefficients. *)
Lemma butter_bandpass_no_band_error :
  ~ (0 < -0.5) /\
  butter_bandpass passthrough_design [-0.5; -3] (-100) 5 = Ok ([1], [1]) /\
  ~ (1 <= 0)%Z /\
  butter_bandpass passthrough_design [0.5; 3] 100 0 = Ok ([1], [1]).
Proof.
  split; [lra |]. split; [| split; [lia |]].
  - rewrite butter_bandpass_nonzero by lra.
    rewrite butter_valid; [reflexivity | | | | lia].
    + lra.
    + lra.
    + lra.
  - rewrite butter_bandpass_nonzero by lra.
    rewrite butter_valid; [reflexivity | | | | lia].
    + lra.
    + lra.
    + lra.
Qed.

(** C5, as the code has it.  The design succeeds exactly when the sample
    rate is non-zero, the band divided by the Nyquist frequency [fs/2]
    satisfies [0 < low < high < 1] and the order is not negative, and it
    then returns the Butterworth coefficients of that normalised band.
    For a positive sample rate the condition on the band is
    [0 < low_hz < high_hz < fs/2].  Every failure is a [ValueError] from
    the design routine, except a zero sample rate, which is a
    [ZeroDivisionError]. *)
Theorem butter_bandpass_spec (design : butter_design) (low high fs : R) (order : Z) :
  let lo := low / (fs / 2) in
  let hi := high / (fs / 2) in
  let valid := fs <> 0 /\ 0 < lo /\ lo < hi /\ hi < 1 /\ (0 <= order)%Z in
  (valid -> butter_bandpass design [low; high] fs order = Ok (design order lo hi)) /\
  (~ valid -> fs <> 0 ->
   butter_bandpass design [low; high] fs order = Raise ValueError) /\
  (fs = 0 -> butter_bandpass design [low; high] fs order = Raise ZeroDivisionError) /\
  (0 < fs -> (valid <-> 0 < low /\ low < high /\ high < fs / 2 /\ (0 <= order)%Z)).
Proof.
  cbv zeta. split; [| split; [| split]].
  - intros [Hfs [H1 [H2 [H3 Ho]]]].
    rewrite butter_bandpass_nonzero by assumption.
    now apply butter_valid.
  - intros Hn Hfs.
    rewrite butter_bandpass_nonzero by assumption.
    apply butter_invalid. intros [H1 [H2 [H3 Ho]]]. apply Hn. repeat split; assumption.
  - intros ->. apply butter_bandpass_zero_rate.
  - intros Hfs. pose proof (normalised_band low high fs Hfs) as B.
    split.
    + intros [_ [H1 [H2 [H3 Ho]]]].
      destruct B as [B _]. destruct B as [B1 [B2 B3]]; [repeat split; assumption |].
      repeat split; assumption.
    + intros [H1 [H2 [H3 Ho]]].
      destruct B as [_ B]. destruct B as [B1 [B2 B3]]; [repeat split; assumption |].
      repeat split; try assumption. lra.
Qed.

Lemma butter_bandpass_spec_witness :
  butter_bandpass passthrough_design [0.5; 3] 100 5 =
  Ok (passthrough_design 5%Z (0.5 / (100 / 2)) (3 / (100 / 2))).
Proof.
  apply (butter_bandpass_spec passthrough_design 0.5 3 100 5).
  apply (butter_bandpass_spec passthrough_design 0.5 3 100 5); [lra |].
  repeat split; try lra. lia.
Defined.

(** ** Filtering *)

Lemma length_lfilter_run (b a_tl : list R) (a0 : R) (data xh yh : list R) :
  length (lfilter_run b a_tl a0 xh yh data) = length data.
Proof.
  revert xh yh. induction data as [| x rest IH]; intros xh yh; simpl.
  - reflexivity.
  - now rewrite IH.
Qed.

(** Filtering a signal followed by more samples: the output on the first
    part is the output of the first part alone, and the pass continues from
    the histories it has built. *)
Lemma lfilter_run_app (b a_tl : list R) (a0 : R) (d1 d2 xh yh : list R) :
  lfilter_run b a_tl a0 xh yh (d1 ++ d2) =
  lfilter_run b a_tl a0 xh yh d1 ++
  lfilter_run b a_tl a0 (rev d1 ++ xh)
    (rev (lfilter_run b a_tl a0 xh yh d1) ++ yh) d2.
Proof.
  revert xh yh. induction d1 as [| x d1 IH]; intros xh yh; simpl.
  - reflexivity.
  - f_equal. rewrite IH. f_equal. rewrite <- !app_assoc. reflexivity.
Qed.

Lemma lfilter_run_firstn (b a_tl : list R) (a0 : R) (data xh yh : list R) (k : nat) :
  lfilter_run b a_tl a0 xh yh (firstn k data) =
  firstn k (lfilter_run b a_tl a0 xh yh data).
Proof.
  revert xh yh k. induction data as [| x rest IH]; intros xh yh [| k]; simpl;
    try reflexivity.
  now rewrite IH.
Qed.

Lemma lfilter_run_nth (b a_tl : list R) (a0 : R) (data : list R) (n : nat) :
  (n < length data)%nat ->
  nth n (lfilter_run b a_tl a0 [] [] data) 0 =
  (dot b (rev (firstn (S n) data))
   - dot a_tl (rev (firstn n (lfilter_run b a_tl a0 [] [] data)))) / a0.
Proof.
  intros Hn.
  rewrite <- (lfilter_run_firstn b a_tl a0 data [] [] n).
  rewrite <- (firstn_skipn n data) at 1.
  destruct (skipn n data) as [| x rest] eqn:Es.
  { exfalso. pose proof (length_skipn n data) as L. rewrite Es in L. simpl in L. lia. }
  assert (Ef : firstn (S n) data = firstn n data ++ [x]).
  { rewrite <- (firstn_skipn n data) at 1. rewrite Es.
    assert (Ln : length (firstn n data) = n) by (rewrite length_firstn; lia).
    replace (S n) with (length (firstn n data) + 1)%nat by lia.
    rewrite firstn_app_2. reflexivity. }
  rewrite Ef, rev_app_distr. simpl rev at 1. simpl app at 2.
  rewrite lfilter_run_app, !app_nil_r.
  rewrite app_nth2; rewrite length_lfilter_run, length_firstn;
    replace (Nat.min n (length data)) with n by lia; [| lia].
  rewrite Nat.sub_diag. reflexivity.
Qed.

Lemma apply_filter_ok (data b a_tl : list R) (a0 : R) :
  b <> [] -> a0 <> 0 -> data <> [] \/ a_tl <> [] ->
  apply_filter data b (a0 :: a_tl) = Ok (lfilter_run b a_tl a0 [] [] data).
Proof.
  intros Hb Ha Hd. unfold apply_filter, lfilter.
  destruct b as [| b0 b']; [contradiction |].
  destruct (Req_dec_T a0 0) as [E | _]; [contradiction |].
  destruct a_tl as [| a1 a_tl]; [| reflexivity].
  destruct data as [| x data]; [| reflexivity].
  destruct Hd as [H | H]; now elim H.
Qed.

Lemma apply_filter_empty_single (b : list R) (a0 : R) :
  apply_filter [] b [a0] = Raise ValueError.
Proof.
  unfold apply_filter, lfilter.
  destruct b as [| b0 b']; [reflexivity |].
  destruct (Req_dec_T a0 0); reflexivity.
Qed.

(** What a successful call tells about its arguments. *)
Lemma apply_filter_inv (data b a y : list R) :
  apply_filter data b a = Ok y ->
  exists a0 a_tl,
    a = a0 :: a_tl /\ b <> [] /\ a0 <> 0 /\ (data <> [] \/ a_tl <> []) /\
    y = lfilter_run b a_tl a0 [] [] data.
Proof.
  unfold apply_filter, lfilter.
  destruct b as [| b0 b]; [discriminate |].
  destruct a as [| a0 a_tl]; [discriminate |].
  destruct (Req_dec_T a0 0) as [_ | Ha]; [discriminate |].
  intros H. exists a0, a_tl.
  destruct a_tl as [| a1 a_tl]; [destruct data as [| x data]; [discriminate |] |];
    injection H as <-; repeat split; try assumption; try discriminate;
    (left; discriminate) || (right; discriminate).
Qed.

Lemma dot_scale (c : R) (b h : list R) :
  dot b (map (Rmult c) h) = c * dot b h.
Proof.
  revert h. induction b as [| bk b IH]; intros [| hk h]; simpl; try ring.
  rewrite IH. ring.
Qed.

Lemma dot_plus (b h1 h2 : list R) :
  length h1 = length h2 ->
  dot b (map2 Rplus h1 h2) = dot b h1 + dot b h2.
Proof.
  revert h1 h2. induction b as [| bk b IH]; intros [| x1 h1] [| x2 h2] E; simpl;
    try ring; try discriminate.
  rewrite IH by (simpl in E; lia). ring.
Qed.

Lemma lfilter_run_scale (c : R) (b a_tl : list R) (a0 : R) (data xh yh : list R) :
  lfilter_run b a_tl a0 (map (Rmult c) xh) (map (Rmult c) yh) (map (Rmult c) data) =
  map (Rmult c) (lfilter_run b a_tl a0 xh yh data).
Proof.
  revert xh yh. induction data as [| x rest IH]; intros xh yh.
  - reflexivity.
  - cbn [map lfilter_run].
    assert (E : (dot b (c * x :: map (Rmult c) xh) - dot a_tl (map (Rmult c) yh)) / a0
                = c * ((dot b (x :: xh) - dot a_tl yh) / a0)).
    { change (c * x :: map (Rmult c) xh) with (map (Rmult c) (x :: xh)).
      rewrite !dot_scale. unfold Rdiv. ring. }
    rewrite E. f_equal.
    apply (IH (x :: xh) ((dot b (x :: xh) - dot a_tl yh) / a0 :: yh)).
Qed.

Lemma lfilter_run_plus (b a_tl : list R) (a0 : R) (d1 d2 xh1 xh2 yh1 yh2 : list R) :
  length d1 = length d2 -> length xh1 = length xh2 -> length yh1 = length yh2 ->
  lfilter_run b a_tl a0 (map2 Rplus xh1 xh2) (map2 Rplus yh1 yh2) (map2 Rplus d1 d2) =
  map2 Rplus (lfilter_run b a_tl a0 xh1 yh1 d1) (lfilter_run b a_tl a0 xh2 yh2 d2).
Proof.
  revert d2 xh1 xh2 yh1 yh2.
  induction d1 as [| x1 d1 IH]; intros [| x2 d2] xh1 xh2 yh1 yh2 Ed Ex Ey;
    try discriminate.
  - reflexivity.
  - cbn [map2 lfilter_run].
    assert (E : (dot b (x1 + x2 :: map2 Rplus xh1 xh2) - dot a_tl (map2 Rplus yh1 yh2)) / a0
                = (dot b (x1 :: xh1) - dot a_tl yh1) / a0
                  + (dot b (x2 :: xh2) - dot a_tl yh2) / a0).
    { change (x1 + x2 :: map2 Rplus xh1 xh2) with (map2 Rplus (x1 :: xh1) (x2 :: xh2)).
      rewrite !dot_plus by (simpl; lia). unfold Rdiv. ring. }
    rewrite E. f_equal.
    apply (IH d2 (x1 :: xh1) (x2 :: xh2)
              ((dot b (x1 :: xh1) - dot a_tl yh1) / a0 :: yh1)
              ((dot b (x2 :: xh2) - dot a_tl yh2) / a0 :: yh2));
      simpl in *; lia.
Qed.

(** On the impulse [1, 0] the one-pole filter [y[n] = x[n] + y[n-1] / 2]
    gives [1, 1/2] in one forward pass and [5/4, 1/2] forward-backward. *)
Lemma forward_backward_differs :
  apply_filter [1; 0] [1] [1; -0.5] = Ok [1; 0.5] /\
  forward_backward [1; 0] [1] [1; -0.5] = Ok [1.25; 0.5].
Proof.
  unfold forward_backward, apply_filter, lfilter.
  destruct (Req_dec_T 1 0) as [E | _]; [lra |].
  cbn [bind lfilter_run dot rev app].
  replace ((1 * 1 + 0 - 0) / 1) with 1 by lra.
  replace ((1 * 0 + 0 - (-0.5 * 1 + 0)) / 1) with 0.5 by lra.
  replace ((1 * 0.5 + 0 - 0) / 1) with 0.5 by lra.
  replace ((1 * 1 + 0 - (-0.5 * 0.5 + 0)) / 1) with 1.25 by lra.
  split; reflexivity.
Qed.

(** C9, counterexample.  The coefficients [b = [1]], [a = [1]] define a
    filter, and on the empty signal applying it raises instead of
    returning a signal of the same length. *)
Lemma apply_filter_empty_signal :
  apply_filter [] [1] [1] = Raise ValueError.
Proof. apply apply_filter_empty_single. Qed.

(** C9, as the code has it.  For a non-empty signal, a non-empty [b] and a
    non-zero leading feedback coefficient, applying the filter returns a
    signal [y] of the length of its input that satisfies the recursive
    difference equation of the coefficients,
    [a0*y[n] = b[0]*x[n] + ... + b[M]*x[n-M] - a[1]*y[n-1] - ... - a[K]*y[n-K]];
    the filter is linear in the signal; and the pass is causal: the first
    [k] outputs are the outputs of the first [k] inputs alone, and samples
    appended to the input leave the outputs before them unchanged.  It is
    not the forward-backward pass, which already differs on an impulse. *)
Theorem apply_filter_causal (data b a_tl : list R) (a0 : R) :
  b <> [] -> a0 <> 0 -> data <> [] ->
  exists y,
    apply_filter data b (a0 :: a_tl) = Ok y /\
    length y = length data /\
    (forall n, (n < length data)%nat ->
       a0 * nth n y 0 =
       dot b (rev (firstn (S n) data)) - dot a_tl (rev (firstn n y))) /\
    (forall k, (1 <= k)%nat ->
       apply_filter (firstn k data) b (a0 :: a_tl) = Ok (firstn k y)) /\
    (forall later, exists y', apply_filter (data ++ later) b (a0 :: a_tl) = Ok (y ++ y')) /\
    (forall c, apply_filter (map (Rmult c) data) b (a0 :: a_tl) = Ok (map (Rmult c) y)) /\
    (forall data2 y2, length data2 = length data ->
       apply_filter data2 b (a0 :: a_tl) = Ok y2 ->
       apply_filter (map2 Rplus data data2) b (a0 :: a_tl) = Ok (map2 Rplus y y2)) /\
    apply_filter [1; 0] [1] [1; -0.5] <> forward_backward [1; 0] [1] [1; -0.5].
Proof.
  intros Hb Ha Hd. exists (lfilter_run b a_tl a0 [] [] data).
  destruct data as [| x data]; [contradiction |].
  split; [apply apply_filter_ok; try assumption; left; discriminate |].
  split; [apply length_lfilter_run |].
  split; [| split; [| split; [| split; [| split]]]].
  - intros n Hn. rewrite lfilter_run_nth by exact Hn. field. exact Ha.
  - intros k Hk. destruct k as [| k]; [lia |].
    rewrite apply_filter_ok by (assumption || (left; discriminate)).
    now rewrite lfilter_run_firstn.
  - intros later. eexists.
    rewrite apply_filter_ok by (assumption || (left; discriminate)).
    rewrite lfilter_run_app. reflexivity.
  - intros c. rewrite apply_filter_ok by (assumption || (left; discriminate)).
    now rewrite <- lfilter_run_scale.
  - intros data2 y2 El E2.
    destruct data2 as [| x2 data2]; [discriminate |].
    rewrite apply_filter_ok in E2 by (assumption || (left; discriminate)).
    rewrite apply_filter_ok by (assumption || (left; discriminate)).
    assert (Ey : y2 = lfilter_run b a_tl a0 [] [] (x2 :: data2)) by congruence.
    rewrite Ey. now rewrite <- lfilter_run_plus by (simpl in *; lia).
  - destruct forward_backward_differs as [-> ->].
    intros E. injection E as E. lra.
Qed.

Lemma apply_filter_causal_witness :
  exists y,
    apply_filter [1; 0] [1] [1; -0.5] = Ok y /\
    length y = length [1; 0] /\
    (forall n, (n < length [1; 0])%nat ->
       1 * nth n y 0 =
       dot [1] (rev (firstn (S n) [1; 0])) - dot [-0.5] (rev (firstn n y))) /\
    (forall k, (1 <= k)%nat ->
       apply_filter (firstn k [1; 0]) [1] [1; -0.5] = Ok (firstn k y)) /\
    (forall later, exists y', apply_filter ([1; 0] ++ later) [1] [1; -0.5] = Ok (y ++ y')) /\
    (forall c, apply_filter (map (Rmult c) [1; 0]) [1] [1; -0.5] = Ok (map (Rmult c) y)) /\
    (forall data2 y2, length data2 = length [1; 0] ->
       apply_filter data2 [1] [1; -0.5] = Ok y2 ->
       apply_filter (map2 Rplus [1; 0] data2) [1] [1; -0.5] = Ok (map2 Rplus y y2)) /\
    apply_filter [1; 0] [1] [1; -0.5] <> forward_backward [1; 0] [1] [1; -0.5].
Proof.
  apply (apply_filter_causal [1; 0] [1] [-0.5] 1).
  - discriminate.
  - lra.
  - discriminate.
Defined.

(** ** The Hamming window *)

Lemma length_arange (start stop step : Z) :
  length (arange start stop step) = Z.to_nat ((stop - start + step - 1) / step).
Proof. unfold arange. now rewrite length_map, length_seq. Qed.

Lemma nth_arange (start stop step : Z) (i : nat) (d : Z) :
  (i < length (arange start stop step))%nat ->
  nth i (arange start stop step) d = (start + step * Z.of_nat i)%Z.
Proof.
  intros H. rewrite length_arange in H. unfold arange.
  rewrite (nth_map_lt _ _ _ O) by (now rewrite length_seq).
  now rewrite seq_nth.
Qed.

Lemma length_hamming (N : nat) : length (hamming N) = N.
Proof.
  destruct N as [| [| m]]; try reflexivity.
  unfold hamming. rewrite length_map, length_arange.
  replace (Z.of_nat (S (S m)) - (1 - Z.of_nat (S (S m))) + 2 - 1)%Z
    with (Z.of_nat (S (S m)) * 2)%Z by lia.
  rewrite Z.div_mul by lia. apply Nat2Z.id.
Qed.

Lemma cos_minus_PI (t : R) : cos (t - PI) = - cos t.
Proof. rewrite cos_minus, cos_PI, sin_PI. ring. Qed.

(** From two samples on, [np.hamming] is the taper of the specification. *)
Lemma nth_hamming (N i : nat) :
  (2 <= N)%nat -> (i < N)%nat -> nth i (hamming N) 0 = hamming_taper N i.
Proof.
  intros HN Hi.
  pose proof (length_hamming N) as L.
  destruct N as [| [| m]]; try lia.
  unfold hamming in *. rewrite length_map in L.
  rewrite (nth_map_lt _ _ _ 0%Z) by lia.
  rewrite nth_arange by lia.
  unfold hamming_taper.
  set (M := S (S m)) in *.
  assert (HM : INR M - 1 <> 0).
  { assert (2 <= INR M) by (apply (le_INR 2); exact HN). lra. }
  rewrite minus_IZR, plus_IZR, minus_IZR, mult_IZR, <- !INR_IZR_INZ.
  replace (PI * (1 - INR M + 2 * INR i) / (INR M - 1))
    with (2 * PI * INR i / (INR M - 1) - PI) by (field; exact HM).
  rewrite cos_minus_PI. lra.
Qed.

(** ** Sums *)

Lemma sum_below_ext (f g : nat -> R) (n : nat) :
  (forall i, (i < n)%nat -> f i = g i) -> sum_below f n = sum_below g n.
Proof.
  induction n as [| n IH]; intros H; simpl.
  - reflexivity.
  - rewrite IH by (intros i Hi; apply H; lia). rewrite H by lia. reflexivity.
Qed.

Lemma sum_below_shift (f : nat -> R) (n : nat) :
  sum_below f (S n) = f O + sum_below (fun i => f (S i)) n.
Proof.
  induction n as [| n IH].
  - simpl. lra.
  - change (sum_below f (S (S n))) with (sum_below f (S n) + f (S n)).
    rewrite IH. simpl. lra.
Qed.

Lemma sum_below_opp (f : nat -> R) (n : nat) :
  sum_below (fun i => - f i) n = - sum_below f n.
Proof.
  induction n as [| n IH]; simpl.
  - lra.
  - rewrite IH. lra.
Qed.

Lemma sum_below_zero (f : nat -> R) (n : nat) :
  (forall i, (i < n)%nat -> f i = 0) -> sum_below f n = 0.
Proof.
  induction n as [| n IH]; intros H; simpl.
  - reflexivity.
  - rewrite IH by (intros i Hi; apply H; lia). rewrite H by lia. lra.
Qed.

Lemma Csum_map2_seq (g : nat -> R -> Cx) (l : list R) (s : nat) :
  Csum (map2 g (seq s (length l)) l) =
  (sum_below (fun n => fst (g (s + n)%nat (nth n l 0))) (length l),
   sum_below (fun n => snd (g (s + n)%nat (nth n l 0))) (length l)).
Proof.
  revert s. induction l as [| a l IH]; intros s.
  - reflexivity.
  - cbn [length seq map2 Csum fold_right].
    fold (Csum (map2 g (seq (S s) (length l)) l)).
    rewrite IH, !sum_below_shift. unfold Cadd. cbn [fst snd nth].
    rewrite Nat.add_0_r. f_equal; f_equal; apply sum_below_ext; intros i _;
      now rewrite Nat.add_succ_comm.
Qed.

(** ** The spectrum *)

Lemma windowed_ok (data : list R) :
  np_mul data (hamming (length data)) = Ok (map2 Rmult data (hamming (length data))).
Proof. apply broadcast2_same. now rewrite length_hamming. Qed.

Lemma length_windowed (data : list R) :
  length (map2 Rmult data (hamming (length data))) = length data.
Proof. rewrite length_map2, length_hamming. apply Nat.min_id. Qed.

Lemma nth_windowed (data : list R) (n : nat) :
  (2 <= length data)%nat -> (n < length data)%nat ->
  nth n (map2 Rmult data (hamming (length data))) 0 = windowed_sample data n.
Proof.
  intros HN Hn.
  rewrite (nth_map2 _ _ _ _ 0 0) by (rewrite ?length_hamming; lia).
  rewrite nth_hamming by lia. reflexivity.
Qed.

(** The magnitude of a transformed bin of the windowed signal is the
    spectrum magnitude of the specification. *)
Lemma Cabs_dft_bin (data : list R) (k : nat) :
  (2 <= length data)%nat ->
  Cabs (dft_bin (map2 Rmult data (hamming (length data))) k) =
  spectrum_magnitude data k.
Proof.
  intros HN. unfold dft_bin, spectrum_magnitude, Cabs.
  set (dw := map2 Rmult data (hamming (length data))).
  assert (L : length dw = length data) by apply length_windowed.
  rewrite Csum_map2_seq. cbn [fst snd Cscale Cexp_i]. rewrite L.
  f_equal.
  rewrite (sum_below_ext _
    (fun n => windowed_sample data n
              * cos (2 * PI * INR k * INR n / INR (length data)))).
  2:{ intros i Hi. cbn [Nat.add]. rewrite cos_neg. unfold dw.
      now rewrite nth_windowed by lia. }
  rewrite (sum_below_ext
    (fun n => nth n dw 0 * sin (- (2 * PI * INR k * INR (0 + n) / INR (length data))))
    (fun n => - (windowed_sample data n
                 * sin (2 * PI * INR k * INR n / INR (length data))))).
  2:{ intros i Hi. cbn [Nat.add]. rewrite sin_neg. unfold dw.
      rewrite nth_windowed by lia. ring. }
  rewrite sum_below_opp. f_equal. ring.
Qed.

(** ** The first-maximum scan *)

Lemma argmax_scan_spec (t : list R) :
  forall (pre : list R) (best : nat) (bv : R) (i : nat),
    length pre = i -> (best < i)%nat ->
    nth best (pre ++ t) 0 = bv ->
    (forall j, (j < i)%nat -> nth j (pre ++ t) 0 <= bv) ->
    (forall j, (j < best)%nat -> nth j (pre ++ t) 0 < bv) ->
    let r := argmax_scan best bv i t in
    (r < length (pre ++ t))%nat /\
    (forall j, (j < length (pre ++ t))%nat -> nth j (pre ++ t) 0 <= nth r (pre ++ t) 0) /\
    (forall j, (j < r)%nat -> nth j (pre ++ t) 0 < nth r (pre ++ t) 0).
Proof.
  induction t as [| v t IH]; intros pre best bv i Hlen Hbest Hbv Hle Hlt.
  - cbn [argmax_scan]. rewrite app_nil_r in *. rewrite Hbv.
    split; [lia |]. split.
    + intros j Hj. apply Hle. lia.
    + exact Hlt.
  - assert (Hv : nth i (pre ++ v :: t) 0 = v).
    { rewrite app_nth2 by lia. rewrite Hlen, Nat.sub_diag. reflexivity. }
    assert (Happ : pre ++ v :: t = (pre ++ [v]) ++ t).
    { rewrite <- app_assoc. reflexivity. }
    cbn [argmax_scan]. destruct (Rlt_dec bv v) as [Hgt | Hngt].
    + rewrite Happ in *.
      apply IH.
      * rewrite length_app. simpl. lia.
      * lia.
      * exact Hv.
      * intros j Hj. destruct (Nat.eq_dec j i) as [-> | Hne].
        -- rewrite Hv. lra.
        -- specialize (Hle j ltac:(lia)). lra.
      * intros j Hj. specialize (Hle j Hj). lra.
    + rewrite Happ in *.
      apply IH.
      * rewrite length_app. simpl. lia.
      * lia.
      * exact Hbv.
      * intros j Hj. destruct (Nat.eq_dec j i) as [-> | Hne].
        -- rewrite Hv. lra.
        -- apply Hle. lia.
      * exact Hlt.
Qed.

(** [np.argmax] of a non-empty sequence returns the first index that holds
    its maximum. *)
Lemma np_argmax_spec (l : list R) :
  l <> [] ->
  exists r,
    np_argmax l = Ok r /\
    (r < length l)%nat /\
    (forall j, (j < length l)%nat -> nth j l 0 <= nth r l 0) /\
    (forall j, (j < r)%nat -> nth j l 0 < nth r l 0).
Proof.
  destruct l as [| v t]; [contradiction | intros _].
  eexists. split; [reflexivity |].
  apply (argmax_scan_spec t [v] O v 1%nat).
  - reflexivity.
  - lia.
  - reflexivity.
  - intros j Hj. replace j with O by lia. simpl. lra.
  - intros j Hj. lia.
Qed.

Lemma np_argmax_empty : np_argmax [] = Raise ValueError.
Proof. reflexivity. Qed.

(** ** Frequency bins *)

Lemma fftfreq_ok (n : nat) (d : R) :
  INR n * d <> 0 ->
  fftfreq n d =
  Ok (map (fun r => IZR r * (1 / (INR n * d)))
          (arange 0 ((Z.of_nat n - 1) / 2 + 1) 1 ++ arange (- (Z.of_nat n / 2)) 0 1)).
Proof.
  intros H. unfold fftfreq. rewrite pydiv_nonzero by exact H. reflexivity.
Qed.

Lemma half_le_first_part (n : nat) :
  (1 <= n)%nat ->
  (n / 2 <= length (arange 0 ((Z.of_nat n - 1) / 2 + 1) 1))%nat.
Proof.
  intros Hn. rewrite length_arange.
  replace ((Z.of_nat n - 1) / 2 + 1 - 0 + 1 - 1)%Z with ((Z.of_nat n - 1) / 2 + 1)%Z by lia.
  rewrite Z.div_1_r.
  assert (E : Z.of_nat (n / 2) = (Z.of_nat n / 2)%Z) by (rewrite Nat2Z.inj_div; reflexivity).
  assert (Z.of_nat n / 2 <= (Z.of_nat n - 1) / 2 + 1)%Z.
  { pose proof (Z.div_mod (Z.of_nat n) 2 ltac:(lia)).
    pose proof (Z.mod_pos_bound (Z.of_nat n) 2 ltac:(lia)).
    pose proof (Z.div_mod (Z.of_nat n - 1) 2 ltac:(lia)).
    pose proof (Z.mod_pos_bound (Z.of_nat n - 1) 2 ltac:(lia)).
    lia. }
  lia.
Qed.

(** The positive-frequency half of the [fftfreq] table holds the bin
    frequencies [k * fs / N]. *)
Lemma positive_frequency_bin (n k : nat) (fs : R) :
  fs <> 0 -> (k < n / 2)%nat ->
  pyindex
    (firstn (n / 2)
       (map (fun r => IZR r * (1 / (INR n * (1 / fs))))
          (arange 0 ((Z.of_nat n - 1) / 2 + 1) 1 ++ arange (- (Z.of_nat n / 2)) 0 1)))
    k = Ok (bin_frequency n fs k).
Proof.
  intros Hfs Hk.
  assert (Hn : (1 <= n)%nat).
  { destruct n; [simpl in Hk; lia | lia]. }
  pose proof (half_le_first_part n Hn) as Hp.
  unfold pyindex.
  rewrite nth_error_firstn.
  destruct (Nat.ltb_spec k (n / 2)) as [_ | Hge]; [| lia].
  rewrite nth_error_map, nth_error_app1 by lia.
  rewrite (nth_error_nth' _ 0%Z) by lia.
  rewrite nth_arange by lia. cbn [option_map].
  f_equal. unfold bin_frequency.
  replace (0 + 1 * Z.of_nat k)%Z with (Z.of_nat k) by lia.
  rewrite <- INR_IZR_INZ.
  assert (INR n <> 0) by (apply not_0_INR; lia).
  field. split; assumption.
Qed.

(** ** stft_analysis *)

Lemma firstn_seq (n start len : nat) :
  firstn n (seq start len) = seq start (Nat.min n len).
Proof.
  revert start len. induction n as [| n IH]; intros start [| len]; simpl;
    try reflexivity.
  now rewrite IH.
Qed.

(** The magnitudes the peak search scans: bins [1 .. N//2 - 1]. *)
Lemma searched_magnitudes (dw : list R) (N : nat) :
  skipn 1 (np_abs (firstn (N / 2) (map (dft_bin dw) (seq 0 N)))) =
  map (fun k => Cabs (dft_bin dw k)) (seq 1 (N / 2 - 1)).
Proof.
  unfold np_abs. rewrite firstn_map, firstn_seq, map_map, skipn_map, skipn_seq.
  replace (Nat.min (N / 2) N) with (N / 2)%nat.
  - reflexivity.
  - pose proof (Nat.Div0.div_le_upper_bound N 2 N). lia.
Qed.

Lemma stft_analysis_empty (fs : R) : stft_analysis [] fs = Raise ValueError.
Proof. reflexivity. Qed.

Lemma stft_analysis_zero_rate (data : list R) :
  data <> [] -> stft_analysis data 0 = Raise ZeroDivisionError.
Proof.
  intros Hd. unfold stft_analysis. cbv zeta.
  rewrite windowed_ok. cbn [bind].
  pose proof (length_windowed data) as L.
  destruct (map2 Rmult data (hamming (length data))) as [| w dw] eqn:E.
  { destruct data; [contradiction | discriminate]. }
  cbn [fft bind]. rewrite pydiv_zero. reflexivity.
Qed.

(** With at least one sample and a non-zero sample rate, everything up to
    the peak search succeeds. *)
Lemma stft_analysis_search (data : list R) (fs : R) :
  data <> [] -> fs <> 0 ->
  stft_analysis data fs =
  (i <- np_argmax
         (map (fun k => Cabs (dft_bin (map2 Rmult data (hamming (length data))) k))
              (seq 1 (length data / 2 - 1))) ;;
   pyindex
     (firstn (length data / 2)
        (map (fun r => IZR r * (1 / (INR (length data) * (1 / fs))))
           (arange 0 ((Z.of_nat (length data) - 1) / 2 + 1) 1
            ++ arange (- (Z.of_nat (length data) / 2)) 0 1)))
     (i + 1)).
Proof.
  intros Hd Hfs. unfold stft_analysis. cbv zeta.
  rewrite windowed_ok. cbn [bind].
  pose proof (length_windowed data) as L.
  assert (HN : INR (length data) <> 0).
  { apply not_0_INR. destruct data; [contradiction | discriminate]. }
  assert (Hd' : INR (length data) * (1 / fs) <> 0).
  { apply Rmult_integral_contrapositive_currified; [exact HN |].
    unfold Rdiv. rewrite Rmult_1_l. now apply Rinv_neq_0_compat. }
  set (dw := map2 Rmult data (hamming (length data))) in *.
  assert (Ef : fft dw = Ok (map (dft_bin dw) (seq 0 (length data)))).
  { unfold fft. rewrite L. destruct dw; [| reflexivity].
    destruct data; [contradiction | discriminate]. }
  rewrite Ef. cbn [bind].
  rewrite pydiv_nonzero by exact Hfs. cbn [bind].
  rewrite fftfreq_ok by exact Hd'. cbn [bind].
  rewrite searched_magnitudes. reflexivity.
Qed.

Lemma stft_analysis_short (data : list R) (fs : R) :
  fs <> 0 -> (length data < 4)%nat -> stft_analysis data fs = Raise ValueError.
Proof.
  intros Hfs HN.
  destruct data as [| x data]; [apply stft_analysis_empty |].
  rewrite stft_analysis_search by (discriminate || exact Hfs).
  set (N := length (x :: data)) in *.
  assert (E : (N / 2 - 1 = 0)%nat).
  { assert (N / 2 < 2)%nat by (apply Nat.Div0.div_lt_upper_bound; lia). lia. }
  rewrite E. reflexivity.
Qed.

(** From four samples on, with a non-zero sample rate, the extractor
    returns the frequency of the first bin among [1 .. N//2 - 1] that holds
    the greatest spectrum magnitude. *)
Lemma stft_analysis_peak (data : list R) (fs : R) :
  (4 <= length data)%nat -> fs <> 0 ->
  exists k,
    stft_analysis data fs = Ok (bin_frequency (length data) fs k) /\
    (1 <= k <= length data / 2 - 1)%nat /\
    (forall j, (1 <= j <= length data / 2 - 1)%nat ->
       spectrum_magnitude data j <= spectrum_magnitude data k) /\
    (forall j, (1 <= j < k)%nat ->
       spectrum_magnitude data j < spectrum_magnitude data k).
Proof.
  intros HN Hfs.
  assert (Hd : data <> []) by (destruct data; [simpl in HN; lia | discriminate]).
  rewrite stft_analysis_search by assumption.
  set (N := length data) in *.
  assert (Hh : (2 <= N / 2)%nat) by (apply Nat.div_le_lower_bound; lia).
  set (mags := map (fun k => Cabs (dft_bin (map2 Rmult data (hamming N)) k))
                   (seq 1 (N / 2 - 1))).
  assert (Lm : length mags = (N / 2 - 1)%nat).
  { unfold mags. now rewrite length_map, length_seq. }
  assert (Hm : forall j, (j < N / 2 - 1)%nat ->
                 nth j mags 0 = spectrum_magnitude data (S j)).
  { intros j Hj. unfold mags.
    rewrite (nth_map_lt _ _ _ O) by (rewrite length_seq; exact Hj).
    rewrite seq_nth by exact Hj. apply Cabs_dft_bin. fold N. lia. }
  destruct (np_argmax_spec mags) as [r [Er [Hr [Hmax Hfirst]]]].
  { intros E. rewrite E in Lm. cbn [length] in Lm. lia. }
  rewrite Er. cbn [bind]. rewrite Lm in *.
  exists (r + 1)%nat. split; [| split; [| split]].
  - apply positive_frequency_bin; [exact Hfs | lia].
  - lia.
  - intros j Hj. replace (r + 1)%nat with (S r) by lia.
    destruct j as [| j]; [lia |].
    rewrite <- !Hm by lia. apply Hmax. lia.
  - intros j Hj. replace (r + 1)%nat with (S r) by lia.
    destruct j as [| j]; [lia |].
    rewrite <- !Hm by lia. apply Hfirst. lia.
Qed.

(** C1, counterexample.  A signal of two samples has [N >= 2], yet the
    extractor returns no frequency: only bin 0 lies in the first [N//2]
    bins, so the search over the remaining bins is over an empty
    sequence. *)
Lemma stft_analysis_two_samples :
  (2 <= length [1; 1])%nat /\ stft_analysis [1; 1] 100 = Raise ValueError.
Proof.
  split; [simpl; lia |].
  apply stft_analysis_short; [lra | simpl; lia].
Qed.

(** C1, as the code has it.  For a signal of [N >= 4] samples at a
    non-zero sample rate the extractor weights the signal by the Hamming
    taper, transforms it, takes the magnitudes of the first [N//2] bins,
    selects an index [k] of the greatest magnitude among bins
    [1 .. N//2 - 1], and returns [k * fs / N]. *)
Theorem stft_analysis_spec (data : list R) (fs : R) :
  (4 <= length data)%nat -> fs <> 0 ->
  exists k,
    peak_index (spectrum_magnitude data) (length data) k /\
    stft_analysis data fs = Ok (bin_frequency (length data) fs k).
Proof.
  intros HN Hfs.
  destruct (stft_analysis_peak data fs HN Hfs) as [k [E [Hk [Hmax _]]]].
  exists k. split; [split; assumption | exact E].
Qed.

Lemma stft_analysis_spec_witness :
  exists k,
    peak_index (spectrum_magnitude [1; 2; 3; 4]) (length [1; 2; 3; 4]) k /\
    stft_analysis [1; 2; 3; 4] 100 = Ok (bin_frequency (length [1; 2; 3; 4]) 100 k).
Proof.
  apply (stft_analysis_spec [1; 2; 3; 4] 100).
  - simpl. lia.
  - lra.
Defined.

(** C3, counterexample.  A signal of three samples has [N >= 2], and the
    extractor fails on it. *)
Lemma stft_analysis_three_samples :
  (2 <= length [1; 2; 3])%nat /\ fails (stft_analysis [1; 2; 3] 100).
Proof.
  split; [simpl; lia |].
  exists ValueError. apply stft_analysis_short; [lra | simpl; lia].
Qed.

(** C3, as the code has it.  At a non-zero sample rate the extractor fails
    exactly when the signal has fewer than 4 samples, and the failure is a
    [ValueError]; for every signal of [N >= 4] samples it succeeds and
    returns a dominant frequency. *)
Theorem stft_analysis_fails_iff (data : list R) (fs : R) :
  fs <> 0 ->
  (fails (stft_analysis data fs) <-> (length data < 4)%nat) /\
  ((length data < 4)%nat -> stft_analysis data fs = Raise ValueError) /\
  ((4 <= length data)%nat -> succeeds (stft_analysis data fs)).
Proof.
  intros Hfs.
  assert (Hok : (4 <= length data)%nat -> succeeds (stft_analysis data fs)).
  { intros HN. destruct (stft_analysis_peak data fs HN Hfs) as [k [E _]].
    now exists (bin_frequency (length data) fs k). }
  split; [| split].
  - split.
    + intros [e He]. destruct (Nat.lt_ge_cases (length data) 4) as [Hlt | Hge].
      * exact Hlt.
      * destruct (Hok Hge) as [v Hv]. rewrite Hv in He. discriminate.
    + intros Hlt. exists ValueError. now apply stft_analysis_short.
  - intros Hlt. now apply stft_analysis_short.
  - exact Hok.
Qed.

Lemma stft_analysis_fails_iff_witness :
  (fails (stft_analysis [1; 2; 3; 4] 100) <-> (length [1; 2; 3; 4] < 4)%nat) /\
  ((length [1; 2; 3; 4] < 4)%nat -> stft_analysis [1; 2; 3; 4] 100 = Raise ValueError) /\
  ((4 <= length [1; 2; 3; 4])%nat -> succeeds (stft_analysis [1; 2; 3; 4] 100)).
Proof.
  apply (stft_analysis_fails_iff [1; 2; 3; 4] 100). lra.
Defined.

(** ** Ties and the flat signal *)

Lemma spectrum_magnitude_flat (data : list R) (k : nat) :
  (forall i, (i < length data)%nat -> windowed_sample data i = 0) ->
  spectrum_magnitude data k = 0.
Proof.
  intros Hz. unfold spectrum_magnitude. cbv zeta.
  rewrite !sum_below_zero.
  - replace (0 ^ 2 + 0 ^ 2) with 0 by ring. apply sqrt_0.
  - intros i Hi. rewrite Hz by exact Hi. ring.
  - intros i Hi. rewrite Hz by exact Hi. ring.
Qed.

Lemma stft_analysis_flat (data : list R) (fs : R) :
  (4 <= length data)%nat -> fs <> 0 ->
  (forall i, (i < length data)%nat -> windowed_sample data i = 0) ->
  stft_analysis data fs = Ok (fs / INR (length data)).
Proof.
  intros HN Hfs Hz.
  destruct (stft_analysis_peak data fs HN Hfs) as [k [E [Hk [_ Hfirst]]]].
  assert (Ek : k = 1%nat).
  { destruct (Nat.eq_dec k 1) as [Ek | Hne]; [exact Ek | exfalso].
    specialize (Hfirst 1%nat ltac:(lia)).
    rewrite !spectrum_magnitude_flat in Hfirst by exact Hz. lra. }
  rewrite E, Ek. unfold bin_frequency. f_equal. simpl INR. lra.
Qed.






Lemma stft_analysis_flat_four : stft_analysis [0; 0; 0; 0] 100 = Ok 25.
Proof.
  rewrite stft_analysis_flat.
  - cbn [length]. simpl INR. f_equal. lra.
  - simpl. lia.
  - lra.
  - intros i _. unfold windowed_sample.
    destruct i as [| [| [| [| [| i]]]]]; cbn [nth]; ring.
Qed.

(** C10.  Whenever the extractor returns a frequency for a signal of
    [N >= 4] samples, that frequency is [k * fs / N] for an integer [k]
    with [1 <= k <= N//2 - 1]; hence, the sample rate being positive, it is
    strictly positive and strictly below the Nyquist frequency [fs / 2]. *)
Theorem stft_analysis_range (data : list R) (fs f : R) :
  (4 <= length data)%nat -> stft_analysis data fs = Ok f ->
  exists k,
    (1 <= k <= length data / 2 - 1)%nat /\
    f = INR k * fs / INR (length data) /\
    (0 < fs -> 0 < f < fs / 2).
Proof.
  intros HN Hf.
  assert (Hfs : fs <> 0).
  { intros ->. rewrite stft_analysis_zero_rate in Hf; [discriminate |].
    destruct data; [simpl in HN; lia | discriminate]. }
  destruct (stft_analysis_peak data fs HN Hfs) as [k [E [Hk _]]].
  rewrite E in Hf. injection Hf as <-.
  exists k. split; [exact Hk |]. split; [reflexivity |].
  intros Hpos. unfold bin_frequency.
  set (N := length data) in *.
  assert (H2 : (2 * k + 2 <= N)%nat).
  { pose proof (Nat.Div0.mul_div_le N 2). lia. }
  assert (HN0 : 0 < INR N) by (apply lt_0_INR; lia).
  assert (Hk1 : 1 <= INR k) by (apply (le_INR 1); lia).
  assert (Hk2 : 2 * INR k + 2 <= INR N).
  { apply le_INR in H2. rewrite plus_INR, mult_INR in H2. simpl INR in H2. lra. }
  assert (Eq : INR k * fs / INR N * INR N = INR k * fs) by (field; lra).
  set (q := INR k * fs / INR N) in *.
  split; nra.
Qed.

Lemma stft_analysis_range_witness :
  exists k,
    (1 <= k <= length [0; 0; 0; 0] / 2 - 1)%nat /\
    25 = INR k * 100 / INR (length [0; 0; 0; 0]) /\
    (0 < 100 -> 0 < 25 < 100 / 2).
Proof.
  apply (stft_analysis_range [0; 0; 0; 0] 100 25).
  - simpl. lia.
  - exact stft_analysis_flat_four.
Defined.

(** ** The report *)

(** A run of the script body: four samples at rest, filtered with the
    pass-through coefficients. *)
Lemma main_flat_run :
  main passthrough_design [0; 0; 0; 0] [0; 0; 0; 0] [0; 0; 0; 0] = Ok (25, 750).
Proof.
  unfold main. cbv zeta.
  rewrite calculate_magnitude_same by reflexivity.
  cbn [bind np_sqrt np_square map map2].
  replace (0 ^ 2 + 0 ^ 2 + 0 ^ 2) with 0 by ring. rewrite sqrt_0.
  rewrite butter_bandpass_nonzero by lra.
  rewrite butter_valid by (lra || lia).
  cbn [bind passthrough_design].
  rewrite apply_filter_ok by (discriminate || lra || (left; discriminate)).
  cbn [bind lfilter_run dot].
  replace ((1 * 0 + 0 - 0) / 1) with 0 by lra.
  rewrite stft_analysis_flat.
  - cbn [bind length]. unfold calculate_heart_rate. simpl INR.
    f_equal. f_equal; lra.
  - simpl. lia.
  - lra.
  - intros i Hi. unfold windowed_sample.
    cbn [length] in Hi.
    destruct i as [| [| [| [| i]]]]; cbn [nth]; try ring. lia.
Qed.

(** C8.  The heart-rate figure the script reports next to a dominant
    frequency [f] is the rate converter's output halved once,
    [f * 60 / 2]; the converter itself returns [f * 60]. *)
Theorem main_reports_half_rate (design : butter_design) (x y z : list R) (f hr : R) :
  main design x y z = Ok (f, hr) ->
  (exists filtered, stft_analysis filtered 100 = Ok f) /\
  hr = calculate_heart_rate f / 2 /\
  hr = f * 60 / 2 /\
  calculate_heart_rate f = f * 60.
Proof.
  unfold main. cbv zeta. intros H.
  destruct (calculate_magnitude x y z) as [magnitude | e]; [| discriminate].
  cbn [bind] in H.
  destruct (butter_bandpass design [0.5; 3] 100 5) as [[b a] | e]; [| discriminate].
  cbn [bind] in H.
  destruct (apply_filter magnitude b a) as [filtered | e]; [| discriminate].
  cbn [bind] in H.
  destruct (stft_analysis filtered 100) as [df | e] eqn:E; [| discriminate].
  cbn [bind] in H. injection H as <- <-.
  split; [now exists filtered |].
  unfold calculate_heart_rate. repeat split.
Qed.

Lemma main_reports_half_rate_witness :
  (exists filtered, stft_analysis filtered 100 = Ok 25) /\
  750 = calculate_heart_rate 25 / 2 /\
  750 = 25 * 60 / 2 /\
  calculate_heart_rate 25 = 25 * 60.
Proof.
  apply (main_reports_half_rate passthrough_design
           [0; 0; 0; 0] [0; 0; 0; 0] [0; 0; 0; 0] 25 750).
  exact main_flat_run.
Defined.

(** * Further properties *)

(** ** Broadcasting in the magnitude *)

Lemma hd_nth_0 (u : list R) : hd 0 u = nth 0 u 0.
Proof. destruct u; reflexivity. Qed.

Lemma channel_at_single (u : list R) (i j : nat) :
  length u = 1%nat -> channel_at u i = channel_at u j.
Proof. intros E. unfold channel_at. now rewrite E. Qed.

Lemma channel_at_nth (u : list R) (i : nat) :
  (i < length u)%nat -> channel_at u i = nth i u 0.
Proof.
  intros Hi. unfold channel_at.
  destruct (Nat.eqb_spec (length u) 1) as [E | _]; [| reflexivity].
  replace i with O by lia. apply hd_nth_0.
Qed.

Lemma channel_at_np_square (u : list R) (i : nat) :
  channel_at (np_square u) i = channel_at u i ^ 2.
Proof.
  unfold channel_at. rewrite length_np_square.
  destruct (Nat.eqb_spec (length u) 1) as [E | NE].
  - destruct u as [| a u]; [discriminate | reflexivity].
  - destruct (Nat.lt_ge_cases i (length u)) as [Hi | Hi].
    + now apply nth_np_square.
    + rewrite !nth_overflow by (rewrite ?length_np_square; lia). ring.
Qed.

(** The elements of a binary operation on two arrays, a one-sample operand
    being read as constant. *)
Lemma broadcast2_elements (f : R -> R -> R) (u v w : list R) :
  broadcast2 f u v = Ok w ->
  length w = broadcast_length (length u) (length v) /\
  forall i, (i < length w)%nat -> nth i w 0 = f (channel_at u i) (channel_at v i).
Proof.
  unfold broadcast2, broadcast_length.
  destruct (Nat.eqb_spec (length u) (length v)) as [E | NE].
  - intros H. injection H as <-.
    assert (L : length (map2 f u v) = length u) by (rewrite length_map2; lia).
    split.
    + rewrite L. destruct (Nat.eqb_spec (length u) 1); lia.
    + intros i Hi. rewrite L in Hi.
      rewrite (nth_map2 _ _ _ _ 0 0) by lia.
      now rewrite !channel_at_nth by lia.
  - destruct (Nat.eqb_spec (length u) 1) as [E1 | NE1].
    + intros H. injection H as <-. split; [apply length_map |].
      intros i Hi. rewrite length_map in Hi.
      rewrite (nth_map_lt _ _ _ 0) by exact Hi.
      unfold channel_at at 1. rewrite E1. cbn [Nat.eqb].
      f_equal. unfold channel_at.
      destruct (Nat.eqb_spec (length v) 1); [lia | reflexivity].
    + destruct (Nat.eqb_spec (length v) 1) as [E2 | NE2]; [| discriminate].
      intros H. injection H as <-. split; [apply length_map |].
      intros i Hi. rewrite length_map in Hi.
      rewrite (nth_map_lt _ _ _ 0) by exact Hi.
      unfold channel_at at 2. rewrite E2. cbn [Nat.eqb].
      f_equal. unfold channel_at.
      destruct (Nat.eqb_spec (length u) 1); [lia | reflexivity].
Qed.

Lemma calculate_magnitude_elements (x y z m : list R) :
  calculate_magnitude x y z = Ok m ->
  length m = broadcast_length (broadcast_length (length x) (length y)) (length z) /\
  forall i, (i < length m)%nat ->
    nth i m 0 = sqrt (channel_at x i ^ 2 + channel_at y i ^ 2 + channel_at z i ^ 2).
Proof.
  unfold calculate_magnitude, np_add. intros H.
  destruct (broadcast2 Rplus (np_square x) (np_square y)) as [w | e] eqn:E1;
    [| discriminate].
  cbn [bind] in H.
  destruct (broadcast2 Rplus w (np_square z)) as [w2 | e] eqn:E2; [| discriminate].
  cbn [bind] in H. injection H as <-.
  destruct (broadcast2_elements _ _ _ _ E1) as [L1 N1].
  destruct (broadcast2_elements _ _ _ _ E2) as [L2 N2].
  rewrite !length_np_square in *.
  unfold np_sqrt. rewrite length_map. split; [now rewrite L2, L1 |].
  intros i Hi. rewrite (nth_map_lt _ _ _ 0) by exact Hi. f_equal.
  rewrite N2 by exact Hi. rewrite !channel_at_np_square. f_equal.
  (* the first sum, read at index [i] *)
  destruct (Nat.eq_dec (length w) 1) as [Ew | Nw].
  - assert (Ex : length x = 1%nat /\ length y = 1%nat).
    { unfold broadcast_length in L1.
      destruct (Nat.eqb_spec (length x) 1); lia. }
    destruct Ex as [Ex Ey].
    rewrite (channel_at_single w i 0 Ew), channel_at_nth by lia.
    rewrite N1 by lia. rewrite !channel_at_np_square.
    now rewrite (channel_at_single x i 0 Ex), (channel_at_single y i 0 Ey).
  - assert (Hiw : (i < length w)%nat).
    { unfold broadcast_length in L2.
      destruct (Nat.eqb_spec (length w) 1); lia. }
    rewrite channel_at_nth by exact Hiw.
    rewrite N1 by exact Hiw. now rewrite !channel_at_np_square.
Qed.

Lemma calculate_magnitude_cases (x y z : list R) :
  let bad := incompatible (length x) (length y) \/
             incompatible (length x) (length z) \/
             incompatible (length y) (length z) in
  (bad /\ calculate_magnitude x y z = Raise ValueError) \/
  (~ bad /\ exists m, calculate_magnitude x y z = Ok m).
Proof.
  cbv zeta. unfold calculate_magnitude, np_add.
  destruct (broadcast2_cases Rplus (np_square x) (np_square y))
    as [[I E] | [NI [w [E L]]]]; rewrite E; cbn [bind];
    rewrite !length_np_square in *.
  - left. split; [now left | reflexivity].
  - destruct (broadcast2_cases Rplus w (np_square z))
      as [[I2 E2] | [NI2 [w2 [E2 L2]]]]; rewrite E2; cbn [bind];
      rewrite !length_np_square in *; rewrite L in *;
      unfold incompatible in *.
    + left. split; [| reflexivity].
      destruct (Nat.eqb_spec (length x) 1); lia.
    + right. split; [| now eexists].
      destruct (Nat.eqb_spec (length x) 1); lia.
Qed.

(** X1.  Whenever the magnitude reducer returns, the result has the length
    the three channels broadcast to, and each element is the root of the
    sum of the squares of the three channels read at that index, a
    one-sample channel being read as a constant. *)
Theorem calculate_magnitude_broadcast (x y z m : list R) :
  calculate_magnitude x y z = Ok m ->
  length m = broadcast_length (broadcast_length (length x) (length y)) (length z) /\
  forall i, (i < length m)%nat ->
    nth i m 0 = sqrt (channel_at x i ^ 2 + channel_at y i ^ 2 + channel_at z i ^ 2).
Proof. apply calculate_magnitude_elements. Qed.

Lemma calculate_magnitude_broadcast_witness :
  length [sqrt (3 ^ 2 + 0 ^ 2 + 0 ^ 2); sqrt (4 ^ 2 + 0 ^ 2 + 0 ^ 2)] =
    broadcast_length (broadcast_length (length [3; 4]) (length [0])) (length [0]) /\
  forall i, (i < length [sqrt (3 ^ 2 + 0 ^ 2 + 0 ^ 2); sqrt (4 ^ 2 + 0 ^ 2 + 0 ^ 2)])%nat ->
    nth i [sqrt (3 ^ 2 + 0 ^ 2 + 0 ^ 2); sqrt (4 ^ 2 + 0 ^ 2 + 0 ^ 2)] 0 =
    sqrt (channel_at [3; 4] i ^ 2 + channel_at [0] i ^ 2 + channel_at [0] i ^ 2).
Proof.
  apply (calculate_magnitude_broadcast [3; 4] [0] [0]).
  reflexivity.
Defined.

(** ** Orientation and scale of the samples *)

Lemma calculate_magnitude_ext (x y z x' y' z' : list R) :
  (incompatible (length x) (length y) \/ incompatible (length x) (length z) \/
   incompatible (length y) (length z) <->
   incompatible (length x') (length y') \/ incompatible (length x') (length z') \/
   incompatible (length y') (length z')) ->
  (~ (incompatible (length x) (length y) \/ incompatible (length x) (length z) \/
      incompatible (length y) (length z)) ->
   broadcast_length (broadcast_length (length x) (length y)) (length z) =
   broadcast_length (broadcast_length (length x') (length y')) (length z')) ->
  (forall i, channel_at x i ^ 2 + channel_at y i ^ 2 + channel_at z i ^ 2 =
             channel_at x' i ^ 2 + channel_at y' i ^ 2 + channel_at z' i ^ 2) ->
  calculate_magnitude x y z = calculate_magnitude x' y' z'.
Proof.
  intros Hbad Hlen Hsum.
  destruct (calculate_magnitude_cases x y z) as [[B E] | [NB [m E]]];
    destruct (calculate_magnitude_cases x' y' z') as [[B' E'] | [NB' [m' E']]];
    rewrite E, E'; try reflexivity; try tauto.
  f_equal.
  destruct (calculate_magnitude_elements _ _ _ _ E) as [L N].
  destruct (calculate_magnitude_elements _ _ _ _ E') as [L' N'].
  specialize (Hlen NB).
  apply (nth_ext _ _ 0 0); [congruence |].
  intros i Hi. rewrite N by exact Hi. rewrite N' by congruence. now rewrite Hsum.
Qed.

Lemma calculate_magnitude_swap_xy (x y z : list R) :
  calculate_magnitude y x z = calculate_magnitude x y z.
Proof.
  apply calculate_magnitude_ext.
  - unfold incompatible. lia.
  - intros NB. unfold incompatible in NB. broadcast_cases.
  - intros i. ring.
Qed.

Lemma calculate_magnitude_swap_yz (x y z : list R) :
  calculate_magnitude x z y = calculate_magnitude x y z.
Proof.
  apply calculate_magnitude_ext.
  - unfold incompatible. lia.
  - intros NB. unfold incompatible in NB. broadcast_cases.
  - intros i. ring.
Qed.

Lemma np_square_opp (u : list R) : np_square (map Ropp u) = np_square u.
Proof.
  unfold np_square. rewrite map_map. apply map_ext. intros a. ring.
Qed.

Lemma calculate_magnitude_flip_x (x y z : list R) :
  calculate_magnitude (map Ropp x) y z = calculate_magnitude x y z.
Proof. unfold calculate_magnitude. now rewrite np_square_opp. Qed.

(** X2.  The magnitude does not depend on the orientation of the sensor
    axes: exchanging two channels or reversing the sign of a channel
    leaves the result, failures included, unchanged. *)
Theorem calculate_magnitude_orientation (x y z : list R) :
  calculate_magnitude y x z = calculate_magnitude x y z /\
  calculate_magnitude x z y = calculate_magnitude x y z /\
  calculate_magnitude z y x = calculate_magnitude x y z /\
  calculate_magnitude (map Ropp x) y z = calculate_magnitude x y z /\
  calculate_magnitude x (map Ropp y) z = calculate_magnitude x y z /\
  calculate_magnitude x y (map Ropp z) = calculate_magnitude x y z.
Proof.
  repeat split.
  - apply calculate_magnitude_swap_xy.
  - apply calculate_magnitude_swap_yz.
  - rewrite (calculate_magnitude_swap_xy y z x), (calculate_magnitude_swap_yz y x z).
    apply calculate_magnitude_swap_xy.
  - apply calculate_magnitude_flip_x.
  - rewrite (calculate_magnitude_swap_xy (map Ropp y) x z),
      calculate_magnitude_flip_x. apply calculate_magnitude_swap_xy.
  - rewrite (calculate_magnitude_swap_yz x (map Ropp z) y),
      (calculate_magnitude_swap_xy (map Ropp z) x y),
      calculate_magnitude_flip_x, (calculate_magnitude_swap_xy x z y).
    apply calculate_magnitude_swap_yz.
Qed.

Lemma sqrt_sum_squares_bounds (a b c : R) :
  let m := sqrt (a ^ 2 + b ^ 2 + c ^ 2) in
  Rabs a <= m /\ Rabs b <= m /\ Rabs c <= m /\
  m <= Rabs a + Rabs b + Rabs c /\
  (m = 0 <-> a = 0 /\ b = 0 /\ c = 0).
Proof.
  cbv zeta.
  assert (Hs : 0 <= a ^ 2 + b ^ 2 + c ^ 2) by nra.
  pose proof (sqrt_pos (a ^ 2 + b ^ 2 + c ^ 2)) as Hm.
  pose proof (pow2_sqrt _ Hs) as Hm2.
  set (m := sqrt (a ^ 2 + b ^ 2 + c ^ 2)) in *.
  pose proof (Rabs_pos a) as Ha. pose proof (Rabs_pos b) as Hb.
  pose proof (Rabs_pos c) as Hc.
  assert (Ea : Rabs a ^ 2 = a ^ 2) by (rewrite <- !Rsqr_pow2; symmetry; apply Rsqr_abs).
  assert (Eb : Rabs b ^ 2 = b ^ 2) by (rewrite <- !Rsqr_pow2; symmetry; apply Rsqr_abs).
  assert (Ec : Rabs c ^ 2 = c ^ 2) by (rewrite <- !Rsqr_pow2; symmetry; apply Rsqr_abs).
  repeat split; nra.
Qed.

(** X3.  Each element of the magnitude is at least the absolute value of
    each of the three readings it is computed from and at most their sum,
    and it is zero exactly when all three are zero. *)
Theorem calculate_magnitude_bounds (x y z m : list R) (i : nat) :
  calculate_magnitude x y z = Ok m -> (i < length m)%nat ->
  Rabs (channel_at x i) <= nth i m 0 /\
  Rabs (channel_at y i) <= nth i m 0 /\
  Rabs (channel_at z i) <= nth i m 0 /\
  nth i m 0 <= Rabs (channel_at x i) + Rabs (channel_at y i) + Rabs (channel_at z i) /\
  (nth i m 0 = 0 <-> channel_at x i = 0 /\ channel_at y i = 0 /\ channel_at z i = 0).
Proof.
  intros E Hi.
  destruct (calculate_magnitude_elements _ _ _ _ E) as [_ N].
  rewrite N by exact Hi. apply sqrt_sum_squares_bounds.
Qed.

Lemma calculate_magnitude_bounds_witness :
  let m := [sqrt (3 ^ 2 + 0 ^ 2 + 0 ^ 2); sqrt (4 ^ 2 + 0 ^ 2 + 0 ^ 2)] in
  Rabs (channel_at [3; 4] 1) <= nth 1 m 0 /\
  Rabs (channel_at [0] 1) <= nth 1 m 0 /\
  Rabs (channel_at [0] 1) <= nth 1 m 0 /\
  nth 1 m 0 <= Rabs (channel_at [3; 4] 1) + Rabs (channel_at [0] 1) + Rabs (channel_at [0] 1) /\
  (nth 1 m 0 = 0 <-> channel_at [3; 4] 1 = 0 /\ channel_at [0] 1 = 0 /\ channel_at [0] 1 = 0).
Proof.
  apply (calculate_magnitude_bounds [3; 4] [0] [0]
           [sqrt (3 ^ 2 + 0 ^ 2 + 0 ^ 2); sqrt (4 ^ 2 + 0 ^ 2 + 0 ^ 2)] 1).
  - reflexivity.
  - simpl. lia.
Defined.

Lemma length_scale (c : R) (u : list R) : length (scale c u) = length u.
Proof. apply length_map. Qed.

Lemma nth_scale (c : R) (u : list R) (i : nat) :
  nth i (scale c u) 0 = c * nth i u 0.
Proof.
  destruct (Nat.lt_ge_cases i (length u)) as [Hi | Hi].
  - unfold scale. now rewrite (nth_map_lt _ _ _ 0).
  - rewrite !nth_overflow by (rewrite ?length_scale; lia). ring.
Qed.

Lemma channel_at_scale (c : R) (u : list R) (i : nat) :
  channel_at (scale c u) i = c * channel_at u i.
Proof.
  unfold channel_at. rewrite length_scale.
  destruct (Nat.eqb_spec (length u) 1) as [E | _].
  - rewrite !hd_nth_0. apply nth_scale.
  - apply nth_scale.
Qed.

Lemma sqrt_scaled_squares (c a b d : R) :
  sqrt ((c * a) ^ 2 + (c * b) ^ 2 + (c * d) ^ 2) =
  Rabs c * sqrt (a ^ 2 + b ^ 2 + d ^ 2).
Proof.
  replace ((c * a) ^ 2 + (c * b) ^ 2 + (c * d) ^ 2)
    with (Rsqr c * (a ^ 2 + b ^ 2 + d ^ 2)) by (unfold Rsqr; ring).
  rewrite sqrt_mult_alt by apply Rle_0_sqr.
  now rewrite sqrt_Rsqr_abs.
Qed.

Lemma calculate_magnitude_scale (c : R) (x y z : list R) :
  calculate_magnitude (scale c x) (scale c y) (scale c z) =
  match calculate_magnitude x y z with
  | Ok m => Ok (scale (Rabs c) m)
  | Raise e => Raise e
  end.
Proof.
  destruct (calculate_magnitude_cases x y z) as [[B E] | [NB [m E]]];
    destruct (calculate_magnitude_cases (scale c x) (scale c y) (scale c z))
      as [[B' E'] | [NB' [m' E']]];
    rewrite !length_scale in *; rewrite E, E'; try reflexivity; try tauto.
  f_equal.
  destruct (calculate_magnitude_elements _ _ _ _ E) as [L N].
  destruct (calculate_magnitude_elements _ _ _ _ E') as [L' N'].
  rewrite !length_scale in L'.
  apply (nth_ext _ _ 0 0); [rewrite length_scale; congruence |].
  intros i Hi. rewrite N' by exact Hi. rewrite nth_scale, N by congruence.
  rewrite !channel_at_scale. apply sqrt_scaled_squares.
Qed.

(** X4.  Multiplying every reading of the three channels by [c]
    multiplies the magnitude by [|c|]; a failure stays the same failure. *)
Theorem calculate_magnitude_homogeneous (c : R) (x y z : list R) :
  (forall m, calculate_magnitude x y z = Ok m ->
     calculate_magnitude (scale c x) (scale c y) (scale c z) = Ok (scale (Rabs c) m)) /\
  (forall e, calculate_magnitude x y z = Raise e ->
     calculate_magnitude (scale c x) (scale c y) (scale c z) = Raise e).
Proof.
  rewrite calculate_magnitude_scale.
  split; intros v E; now rewrite E.
Qed.

Lemma calculate_magnitude_homogeneous_witness :
  calculate_magnitude (scale 2 [3; 0]) (scale 2 [4; 0]) (scale 2 [0; 1]) =
  Ok (scale (Rabs 2)
        (np_sqrt (map2 Rplus (map2 Rplus (np_square [3; 0]) (np_square [4; 0]))
                    (np_square [0; 1])))).
Proof.
  apply (calculate_magnitude_homogeneous 2 [3; 0] [4; 0] [0; 1]).
  reflexivity.
Defined.

(** ** The band argument of the filter design *)

(** X5.  The design reads exactly the first two entries of the band: with
    no entry it raises [IndexError] whatever the sample rate; with one
    entry it raises [ZeroDivisionError] when the sample rate is zero, the
    division of the first entry coming before the second is read, and
    [IndexError] otherwise; entries after the second are ignored. *)
Theorem butter_bandpass_cutoff_entries (design : butter_design) (fs : R) (order : Z) :
  butter_bandpass design [] fs order = Raise IndexError /\
  (forall c0, fs = 0 -> butter_bandpass design [c0] fs order = Raise ZeroDivisionError) /\
  (forall c0, fs <> 0 -> butter_bandpass design [c0] fs order = Raise IndexError) /\
  (forall c0 c1 extra,
     butter_bandpass design (c0 :: c1 :: extra) fs order =
     butter_bandpass design [c0; c1] fs order).
Proof.
  split; [reflexivity |]. split; [| split].
  - intros c0 ->. unfold butter_bandpass. cbn [pyindex nth_error bind].
    replace (0.5 * 0) with 0 by lra. now rewrite pydiv_zero.
  - intros c0 Hfs. unfold butter_bandpass. cbn [pyindex nth_error bind].
    rewrite pydiv_nonzero by lra. reflexivity.
  - intros c0 c1 extra. reflexivity.
Qed.

Lemma butter_bandpass_cutoff_entries_witness :
  butter_bandpass passthrough_design [0.5] 100 5 = Raise IndexError.
Proof.
  apply (butter_bandpass_cutoff_entries passthrough_design 100 5). lra.
Defined.

(** X6.  The design depends on the band and the sample rate only through
    their ratio: expressing both in another unit, that is multiplying the
    band entries and the sample rate by the same non-zero factor, gives the
    same coefficients or the same failure. *)
Theorem butter_bandpass_unit_free (design : butter_design) (c : R) (cutoff : list R)
  (fs : R) (order : Z) :
  c <> 0 ->
  butter_bandpass design (scale c cutoff) (c * fs) order =
  butter_bandpass design cutoff fs order.
Proof.
  intros Hc. unfold butter_bandpass. cbv zeta.
  destruct cutoff as [| c0 cutoff]; [reflexivity |].
  cbn [scale map pyindex nth_error bind].
  destruct (Req_dec_T fs 0) as [-> | Hfs].
  - replace (0.5 * (c * 0)) with 0 by lra. replace (0.5 * 0) with 0 by lra.
    now rewrite !pydiv_zero.
  - assert (Hn : 0.5 * fs <> 0) by lra.
    assert (Hn' : 0.5 * (c * fs) <> 0).
    { intros E. apply Hn. apply (Rmult_eq_reg_l c); [lra | exact Hc]. }
    rewrite !pydiv_nonzero by assumption. cbn [bind].
    replace (c * c0 / (0.5 * (c * fs))) with (c0 / (0.5 * fs)) by (field; lra).
    destruct cutoff as [| c1 cutoff]; [reflexivity |].
    cbn [map pyindex nth_error bind]. rewrite !pydiv_nonzero by assumption.
    cbn [bind].
    replace (c * c1 / (0.5 * (c * fs))) with (c1 / (0.5 * fs)) by (field; lra).
    reflexivity.
Qed.

Lemma butter_bandpass_unit_free_witness :
  butter_bandpass passthrough_design (scale 60 [0.5; 3]) (60 * 100) 5 =
  butter_bandpass passthrough_design [0.5; 3] 100 5.
Proof.
  apply (butter_bandpass_unit_free passthrough_design 60 [0.5; 3] 100 5). lra.
Defined.

(** ** Gain and delay of the filter *)

Lemma dot_scale_l (c : R) (b h : list R) : dot (scale c b) h = c * dot b h.
Proof.
  revert h. induction b as [| bk b IH]; intros [| hk h]; simpl; try ring.
  unfold scale in IH. rewrite IH. ring.
Qed.

Lemma lfilter_run_gain (c : R) (b a_tl : list R) (a0 : R) (data xh yh : list R) :
  c <> 0 -> a0 <> 0 ->
  lfilter_run (scale c b) (scale c a_tl) (c * a0) xh yh data =
  lfilter_run b a_tl a0 xh yh data.
Proof.
  intros Hc Ha. revert xh yh.
  induction data as [| x rest IH]; intros xh yh; [reflexivity |].
  cbn [lfilter_run]. rewrite !dot_scale_l.
  replace ((c * dot b (x :: xh) - c * dot a_tl yh) / (c * a0))
    with ((dot b (x :: xh) - dot a_tl yh) / a0) by (field; split; assumption).
  now rewrite IH.
Qed.

(** X7.  Only the ratio of the coefficients to the leading feedback
    coefficient matters: multiplying both coefficient sequences by the
    same non-zero factor leaves the filtered signal, or the failure,
    unchanged. *)
Theorem apply_filter_gain_normalised (c : R) (data b a : list R) :
  c <> 0 ->
  apply_filter data (scale c b) (scale c a) = apply_filter data b a.
Proof.
  intros Hc. unfold apply_filter, lfilter.
  destruct b as [| b0 b]; [reflexivity |].
  destruct a as [| a0 a_tl]; [reflexivity |].
  cbn [scale map].
  destruct (Req_dec_T a0 0) as [-> | Ha].
  - destruct (Req_dec_T (c * 0) 0) as [_ | N]; [reflexivity |].
    exfalso. apply N. ring.
  - destruct (Req_dec_T (c * a0) 0) as [E | _].
    + exfalso. apply Rmult_integral in E. tauto.
    + destruct a_tl as [| a1 a_tl].
      * destruct data as [| x data]; [reflexivity |].
        cbn [map]. f_equal.
        apply (lfilter_run_gain c (b0 :: b) [] a0 (x :: data) [] [] Hc Ha).
      * cbn [map]. f_equal.
        apply (lfilter_run_gain c (b0 :: b) (a1 :: a_tl) a0 data [] [] Hc Ha).
Qed.

Lemma apply_filter_gain_normalised_witness :
  apply_filter [1; 0] (scale 2 [1]) (scale 2 [1; -0.5]) =
  apply_filter [1; 0] [1] [1; -0.5].
Proof.
  apply (apply_filter_gain_normalised 2 [1; 0] [1] [1; -0.5]). lra.
Defined.

Lemma dot_zeros (b : list R) (j : nat) : dot b (repeat 0 j) = 0.
Proof.
  revert j. induction b as [| bk b IH]; intros [| j]; simpl; try reflexivity.
  rewrite IH. ring.
Qed.

Lemma dot_app_zeros (b h : list R) (j : nat) : dot b (h ++ repeat 0 j) = dot b h.
Proof.
  revert h. induction b as [| bk b IH]; intros h.
  - reflexivity.
  - destruct h as [| hk h].
    + cbn [app]. rewrite dot_zeros. reflexivity.
    + cbn [app dot]. now rewrite IH.
Qed.

(** Zeros at the far end of the histories are the zero initial
    conditions. *)
Lemma lfilter_run_zero_history (b a_tl : list R) (a0 : R) (data xh yh : list R)
  (i j : nat) :
  lfilter_run b a_tl a0 (xh ++ repeat 0 i) (yh ++ repeat 0 j) data =
  lfilter_run b a_tl a0 xh yh data.
Proof.
  revert xh yh. induction data as [| x rest IH]; intros xh yh; [reflexivity |].
  cbn [lfilter_run].
  change (x :: xh ++ repeat 0 i) with ((x :: xh) ++ repeat 0 i).
  rewrite !dot_app_zeros. f_equal.
  apply (IH (x :: xh) ((dot b (x :: xh) - dot a_tl yh) / a0 :: yh)).
Qed.

Lemma lfilter_run_zeros (b a_tl : list R) (a0 : R) (k i j : nat) :
  lfilter_run b a_tl a0 (repeat 0 i) (repeat 0 j) (repeat 0 k) = repeat 0 k.
Proof.
  revert i j. induction k as [| k IH]; intros i j; [reflexivity |].
  cbn [repeat lfilter_run].
  change (0 :: repeat 0 i) with (repeat 0 (S i)).
  rewrite !dot_zeros.
  replace ((0 - 0) / a0) with 0 by (unfold Rdiv; ring).
  f_equal. apply (IH (S i) (S j)).
Qed.

Lemma rev_zeros (k : nat) : rev (repeat 0 k) = repeat 0 k.
Proof.
  induction k as [| k IH]; [reflexivity |].
  cbn [repeat rev]. rewrite IH.
  clear IH. induction k as [| k IH]; [reflexivity |].
  cbn [repeat app]. now rewrite IH.
Qed.

Lemma lfilter_run_delay (b a_tl : list R) (a0 : R) (data : list R) (k : nat) :
  lfilter_run b a_tl a0 [] [] (repeat 0 k ++ data) =
  repeat 0 k ++ lfilter_run b a_tl a0 [] [] data.
Proof.
  pose proof (lfilter_run_zeros b a_tl a0 k 0 0) as Z.
  pose proof (lfilter_run_zero_history b a_tl a0 data [] [] k k) as H.
  cbn [repeat app] in Z, H.
  rewrite lfilter_run_app, Z, rev_zeros, !app_nil_r, H. reflexivity.
Qed.

(** X8.  The filter is time-invariant: a signal that starts [k] samples
    later, after [k] zero samples, gives the same output [k] samples later,
    after [k] zero samples. *)
Theorem apply_filter_time_invariant (data b a y : list R) (k : nat) :
  apply_filter data b a = Ok y ->
  apply_filter (repeat 0 k ++ data) b a = Ok (repeat 0 k ++ y).
Proof.
  intros H.
  destruct (apply_filter_inv _ _ _ _ H) as [a0 [a_tl [-> [Hb [Ha [Hd ->]]]]]].
  rewrite apply_filter_ok; [now rewrite lfilter_run_delay | exact Hb | exact Ha |].
  destruct Hd as [Hd | Hd]; [left | right; exact Hd].
  intros E. apply app_eq_nil in E. destruct E as [_ E]. contradiction.
Qed.

Lemma apply_filter_time_invariant_witness :
  apply_filter (repeat 0 3 ++ [1; 0]) [1] [1; -0.5] = Ok (repeat 0 3 ++ [1; 0.5]).
Proof.
  apply (apply_filter_time_invariant [1; 0] [1] [1; -0.5] [1; 0.5] 3).
  apply forward_backward_differs.
Defined.

(** ** Failures of the spectral analysis *)

Lemma nonempty_of_length (data : list R) (n : nat) :
  (S n <= length data)%nat -> data <> [].
Proof. destruct data; [simpl; lia | discriminate]. Qed.

(** The peak bin is found from the samples alone; the sample rate only
    scales it to a frequency. *)
Lemma stft_analysis_index (data : list R) :
  (4 <= length data)%nat ->
  exists k,
    (1 <= k <= length data / 2 - 1)%nat /\
    forall fs, fs <> 0 ->
      stft_analysis data fs = Ok (bin_frequency (length data) fs k).
Proof.
  intros HN.
  assert (Hd : data <> []) by (apply (nonempty_of_length data 3); exact HN).
  set (N := length data) in *.
  assert (Hh : (2 <= N / 2)%nat) by (apply Nat.div_le_lower_bound; lia).
  set (mags := map (fun k => Cabs (dft_bin (map2 Rmult data (hamming N)) k))
                   (seq 1 (N / 2 - 1))).
  assert (Lm : length mags = (N / 2 - 1)%nat).
  { unfold mags. now rewrite length_map, length_seq. }
  destruct (np_argmax_spec mags) as [r [Er [Hr _]]].
  { intros E. rewrite E in Lm. cbn [length] in Lm. lia. }
  rewrite Lm in Hr.
  exists (r + 1)%nat. split; [lia |].
  intros fs Hfs. rewrite stft_analysis_search by assumption.
  fold N. fold mags. rewrite Er. cbn [bind].
  apply positive_frequency_bin; [exact Hfs | lia].
Qed.

(** X9.  The spectral analysis never fails on the lookup of the peak bin,
    and it fails on the division by the sample rate exactly when the
    signal is not empty and the sample rate is zero: on an empty signal
    the transform, which comes first, fails with [ValueError] even at a
    zero sample rate. *)
Theorem stft_analysis_failures (data : list R) (fs : R) :
  stft_analysis data fs <> Raise IndexError /\
  (stft_analysis data fs = Raise ZeroDivisionError <-> data <> [] /\ fs = 0) /\
  (data = [] -> stft_analysis data fs = Raise ValueError).
Proof.
  destruct data as [| x data].
  - rewrite stft_analysis_empty. split; [discriminate |].
    split; [| reflexivity]. split; [discriminate | intros [H _]; now elim H].
  - destruct (Req_dec_T fs 0) as [-> | Hfs].
    + rewrite stft_analysis_zero_rate by discriminate.
      split; [discriminate |]. split; [| discriminate].
      split; [intros _; split; [discriminate | reflexivity] | reflexivity].
    + destruct (Nat.lt_ge_cases (length (x :: data)) 4) as [Hlt | Hge].
      * rewrite stft_analysis_short by assumption.
        split; [discriminate |]. split; [| discriminate].
        split; [discriminate | intros [_ E]; contradiction].
      * destruct (stft_analysis_index (x :: data) Hge) as [k [_ Hk]].
        rewrite Hk by exact Hfs.
        split; [discriminate |]. split; [| discriminate].
        split; [discriminate | intros [_ E]; contradiction].
Qed.

(** ** Amplitude and sample rate *)

Lemma sum_below_scale (c : R) (f : nat -> R) (n : nat) :
  sum_below (fun i => c * f i) n = c * sum_below f n.
Proof.
  induction n as [| n IH]; simpl.
  - ring.
  - rewrite IH. ring.
Qed.

Lemma map2_scale_l (c : R) (u v : list R) :
  map2 Rmult (scale c u) v = scale c (map2 Rmult u v).
Proof.
  revert v. induction u as [| a u IH]; intros [| b v]; simpl; try reflexivity.
  unfold scale in IH. rewrite IH. f_equal. ring.
Qed.

Lemma Cabs_dft_bin_scale (c : R) (u : list R) (k : nat) :
  Cabs (dft_bin (scale c u) k) = Rabs c * Cabs (dft_bin u k).
Proof.
  unfold dft_bin, Cabs. rewrite !Csum_map2_seq, length_scale.
  cbn [fst snd Cscale Cexp_i].
  rewrite (sum_below_ext _
    (fun n => c * (nth n u 0 * cos (- (2 * PI * INR k * INR (0 + n) / INR (length u))))))
    by (intros i _; rewrite nth_scale; ring).
  rewrite (sum_below_ext
    (fun n => nth n (scale c u) 0 * sin (- (2 * PI * INR k * INR (0 + n) / INR (length u))))
    (fun n => c * (nth n u 0 * sin (- (2 * PI * INR k * INR (0 + n) / INR (length u))))))
    by (intros i _; rewrite nth_scale; ring).
  rewrite !sum_below_scale.
  set (re := sum_below _ _). set (im := sum_below _ _).
  replace ((c * re) ^ 2 + (c * im) ^ 2) with (Rsqr c * (re ^ 2 + im ^ 2))
    by (unfold Rsqr; ring).
  rewrite sqrt_mult_alt by apply Rle_0_sqr.
  now rewrite sqrt_Rsqr_abs.
Qed.

Lemma argmax_scan_scale (p : R) (t : list R) :
  0 < p ->
  forall best bv i,
    argmax_scan best (p * bv) i (scale p t) = argmax_scan best bv i t.
Proof.
  intros Hp. induction t as [| v t IH]; intros best bv i; [reflexivity |].
  cbn [scale map argmax_scan]. fold (scale p t).
  destruct (Rlt_dec (p * bv) (p * v)) as [H | H];
    destruct (Rlt_dec bv v) as [H' | H']; try apply IH.
  - exfalso. apply H'. apply (Rmult_lt_reg_l p); assumption.
  - exfalso. apply H. apply Rmult_lt_compat_l; assumption.
Qed.

Lemma np_argmax_scale (p : R) (l : list R) :
  0 < p -> np_argmax (scale p l) = np_argmax l.
Proof.
  intros Hp. destruct l as [| v t]; [reflexivity |].
  cbn [scale map np_argmax]. fold (scale p t). f_equal.
  now apply argmax_scan_scale.
Qed.

Lemma stft_analysis_scale (c : R) (data : list R) (fs : R) :
  c <> 0 -> stft_analysis (scale c data) fs = stft_analysis data fs.
Proof.
  intros Hc.
  destruct data as [| x data]; [reflexivity |].
  assert (Hd : x :: data <> []) by discriminate.
  assert (Hd' : scale c (x :: data) <> []) by discriminate.
  destruct (Req_dec_T fs 0) as [-> | Hfs].
  - now rewrite !stft_analysis_zero_rate.
  - rewrite !stft_analysis_search by assumption.
    rewrite length_scale.
    set (N := length (x :: data)).
    rewrite map2_scale_l.
    rewrite (map_ext
      (fun k => Cabs (dft_bin (scale c (map2 Rmult (x :: data) (hamming N))) k))
      (fun k => Rabs c * Cabs (dft_bin (map2 Rmult (x :: data) (hamming N)) k)))
      by (intros k; apply Cabs_dft_bin_scale).
    rewrite <- (map_map (fun k => Cabs (dft_bin (map2 Rmult (x :: data) (hamming N)) k))
                        (Rmult (Rabs c))).
    fold (scale (Rabs c)
            (map (fun k => Cabs (dft_bin (map2 Rmult (x :: data) (hamming N)) k))
                 (seq 1 (N / 2 - 1)))).
    rewrite np_argmax_scale by (apply Rabs_pos_lt; exact Hc).
    reflexivity.
Qed.

(** X10.  The dominant frequency does not depend on the amplitude or the
    sign of the signal: multiplying every sample by the same non-zero
    factor leaves the result, failures included, unchanged. *)
Theorem stft_analysis_amplitude_free (c : R) (data : list R) (fs : R) :
  c <> 0 -> stft_analysis (scale c data) fs = stft_analysis data fs.
Proof. apply stft_analysis_scale. Qed.

Lemma stft_analysis_amplitude_free_witness :
  stft_analysis (scale (-3) [1; 2; 3; 4]) 100 = stft_analysis [1; 2; 3; 4] 100.
Proof.
  apply (stft_analysis_amplitude_free (-3) [1; 2; 3; 4] 100). lra.
Defined.

Lemma stft_analysis_ok_inv (data : list R) (fs f : R) :
  stft_analysis data fs = Ok f -> (4 <= length data)%nat /\ fs <> 0.
Proof.
  intros H.
  destruct data as [| x data]; [rewrite stft_analysis_empty in H; discriminate |].
  destruct (Req_dec_T fs 0) as [-> | Hfs].
  { rewrite stft_analysis_zero_rate in H by discriminate. discriminate. }
  split; [| exact Hfs].
  destruct (Nat.lt_ge_cases (length (x :: data)) 4) as [Hlt | Hge]; [| exact Hge].
  rewrite stft_analysis_short in H by assumption. discriminate.
Qed.

(** X11.  The dominant frequency is proportional to the sample rate: the
    peak bin is found from the samples alone, so the same samples at [c]
    times the sample rate give [c] times the frequency. *)
Theorem stft_analysis_rate_linear (c : R) (data : list R) (fs f : R) :
  c <> 0 -> stft_analysis data fs = Ok f ->
  stft_analysis data (c * fs) = Ok (c * f).
Proof.
  intros Hc H.
  destruct (stft_analysis_ok_inv data fs f H) as [HN Hfs].
  destruct (stft_analysis_index data HN) as [k [_ Hk]].
  rewrite Hk in H by exact Hfs. injection H as <-.
  rewrite Hk by (apply Rmult_integral_contrapositive_currified; assumption).
  f_equal. unfold bin_frequency. unfold Rdiv. ring.
Qed.

Lemma stft_analysis_rate_linear_witness :
  stft_analysis [0; 0; 0; 0] (2 * 100) = Ok (2 * 25).
Proof.
  apply (stft_analysis_rate_linear 2 [0; 0; 0; 0] 100 25).
  - lra.
  - exact stft_analysis_flat_four.
Defined.

(** X12.  With four or five samples only bin 1 is searched, so the result
    is [fs / N] whatever the samples are. *)
Theorem stft_analysis_single_bin (data : list R) (fs : R) :
  fs <> 0 -> length data = 4%nat \/ length data = 5%nat ->
  stft_analysis data fs = Ok (fs / INR (length data)).
Proof.
  intros Hfs HN.
  destruct (stft_analysis_index data ltac:(lia)) as [k [Hk Hr]].
  rewrite Hr by exact Hfs.
  assert (Ek : k = 1%nat).
  { destruct HN as [E | E]; rewrite E in Hk; cbn in Hk; lia. }
  rewrite Ek. unfold bin_frequency. f_equal. simpl INR. lra.
Qed.

Lemma stft_analysis_single_bin_witness :
  stft_analysis [7; -2; 5; 1; 9] 100 = Ok (100 / INR (length [7; -2; 5; 1; 9])).
Proof.
  apply (stft_analysis_single_bin [7; -2; 5; 1; 9] 100).
  - lra.
  - right. reflexivity.
Defined.

(** ** The script body as a whole *)

Lemma butter_bandpass_script (design : butter_design) :
  butter_bandpass design [0.5; 3] 100 5 = Ok (script_coefficients design).
Proof.
  unfold butter_bandpass. cbn [pyindex nth_error bind].
  rewrite !pydiv_nonzero by lra. cbn [bind].
  rewrite butter_valid by (lra || lia). reflexivity.
Qed.

Lemma list_eq_nil_dec (l : list R) : l = [] \/ l <> [].
Proof. destruct l; [now left | right; discriminate]. Qed.

Lemma apply_filter_usable (data b a : list R) :
  usable (b, a) -> data <> [] ->
  exists y, apply_filter data b a = Ok y /\ length y = length data.
Proof.
  intros [Hb [a0 [a_tl [Ea Ha]]]] Hd. cbn [fst snd] in *. subst a.
  eexists. split; [apply apply_filter_ok; auto | apply length_lfilter_run].
Qed.

(** On the empty signal the filter fails or returns the empty signal. *)
Lemma apply_filter_nil (b a : list R) :
  apply_filter [] b a = Raise ValueError \/ apply_filter [] b a = Ok [].
Proof.
  unfold apply_filter, lfilter.
  destruct b as [| b0 b]; [now left |].
  destruct a as [| a0 a_tl]; [now left |].
  destruct (Req_dec_T a0 0) as [_ | Ha]; [now left |].
  destruct a_tl; [now left | now right].
Qed.

Lemma apply_filter_unusable (data b a : list R) :
  ~ usable (b, a) -> apply_filter data b a = Raise ValueError.
Proof.
  intros H. unfold apply_filter, lfilter.
  destruct b as [| b0 b]; [reflexivity |].
  destruct a as [| a0 a_tl]; [reflexivity |].
  destruct (Req_dec_T a0 0) as [_ | Ha]; [reflexivity |].
  exfalso. apply H. split; [discriminate |].
  exists a0, a_tl. now split.
Qed.

Lemma usable_dec (c : coefficients) : usable c \/ ~ usable c.
Proof.
  destruct c as [b a]. unfold usable. cbn [fst snd].
  destruct b as [| b0 b]; [right; intros [H _]; now apply H |].
  destruct a as [| a0 a_tl].
  { right. intros [_ [a0 [a_tl [E _]]]]. discriminate. }
  destruct (Req_dec_T a0 0) as [-> | Ha].
  - right. intros [_ [a0 [a_tl' [E N]]]]. injection E as <- _. now apply N.
  - left. split; [discriminate |]. exists a0, a_tl. now split.
Qed.

(** The script body, stage by stage, with the design already done. *)
Lemma main_stages (design : butter_design) (x y z : list R) :
  main design x y z =
  (magnitude <- calculate_magnitude x y z ;;
   filtered <- apply_filter magnitude (fst (script_coefficients design))
                 (snd (script_coefficients design)) ;;
   f <- stft_analysis filtered 100 ;;
   Ok (f, calculate_heart_rate f / 2)).
Proof.
  unfold main. cbv zeta.
  destruct (calculate_magnitude x y z) as [magnitude | e]; [| reflexivity].
  cbn [bind]. rewrite butter_bandpass_script. cbn [bind].
  destruct (script_coefficients design) as [b a]. reflexivity.
Qed.

(** X13.  Every failure of the script body is a [ValueError]: the body
    never divides by zero and never indexes out of range.  It reports its
    two figures exactly when the three channel lengths broadcast together
    to at least four samples and the designed coefficients are usable. *)
Theorem main_failures (design : butter_design) (x y z : list R) :
  (forall e, main design x y z = Raise e -> e = ValueError) /\
  (succeeds (main design x y z) <->
   ~ (incompatible (length x) (length y) \/ incompatible (length x) (length z) \/
      incompatible (length y) (length z)) /\
   usable (script_coefficients design) /\
   (4 <= broadcast_length (broadcast_length (length x) (length y)) (length z))%nat).
Proof.
  rewrite main_stages. unfold succeeds.
  destruct (calculate_magnitude_cases x y z) as [[B E] | [NB [m E]]]; rewrite E;
    cbn [bind].
  { split; [intros e H; now injection H |].
    split; [intros [v H]; discriminate | intros [H _]; contradiction]. }
  destruct (calculate_magnitude_elements _ _ _ _ E) as [L _]. rewrite <- L.
  destruct (script_coefficients design) as [b a] eqn:Ec. cbn [fst snd].
  destruct (usable_dec (b, a)) as [U | NU].
  2:{ rewrite apply_filter_unusable by exact NU. cbn [bind].
      split; [intros e H; now injection H |].
      split; [intros [v H]; discriminate | intros [_ [H _]]; contradiction]. }
  destruct m as [| m0 m'].
  { destruct (apply_filter_nil b a) as [En | En]; rewrite En; cbn [bind];
      rewrite ?stft_analysis_empty; cbn [bind];
      (split; [intros e H; now injection H |]);
      (split; [intros [v H]; discriminate |]);
      intros [_ [_ H]]; cbn [length] in H; lia. }
  destruct (apply_filter_usable (m0 :: m') b a U ltac:(discriminate))
    as [filtered [Ef Lf]].
  rewrite Ef. cbn [bind]. rewrite <- Lf.
  destruct (Nat.lt_ge_cases (length filtered) 4) as [Hlt | Hge].
  - rewrite stft_analysis_short by (lra || exact Hlt). cbn [bind].
    split; [intros e H; now injection H |].
    split; [intros [v H]; discriminate | intros [_ [_ H]]; lia].
  - destruct (stft_analysis_index filtered Hge) as [k [_ Hk]].
    rewrite Hk by lra. cbn [bind].
    split; [intros e H; discriminate |].
    split; [intros _ | intros _; now eexists].
    split; [exact NB | split; [exact U | exact Hge]].
Qed.

Lemma main_failures_witness :
  (forall e, main passthrough_design [1; 2] [1; 2; 3] [1; 2] = Raise e -> e = ValueError) /\
  (succeeds (main passthrough_design [1; 2] [1; 2; 3] [1; 2]) <->
   ~ (incompatible (length [1; 2]) (length [1; 2; 3]) \/
      incompatible (length [1; 2]) (length [1; 2]) \/
      incompatible (length [1; 2; 3]) (length [1; 2])) /\
   usable (script_coefficients passthrough_design) /\
   (4 <= broadcast_length (broadcast_length (length [1; 2]) (length [1; 2; 3]))
           (length [1; 2]))%nat).
Proof.
  apply (main_failures passthrough_design [1; 2] [1; 2; 3] [1; 2]).
Defined.

(** X14.  The figures the script body reports are a frequency
    [f = 100 k / N], for an integer [k] with [1 <= k <= N//2 - 1] and [N]
    the number of samples, strictly between 0 and 50 Hz, and the rate
    [30 f], strictly between 0 and 1500. *)
Theorem main_report_range (design : butter_design) (x y z : list R) (f hr : R) :
  main design x y z = Ok (f, hr) ->
  let N := broadcast_length (broadcast_length (length x) (length y)) (length z) in
  exists k,
    (1 <= k <= N / 2 - 1)%nat /\
    f = 100 * INR k / INR N /\
    0 < f < 50 /\
    hr = 30 * f /\
    0 < hr < 1500.
Proof.
  rewrite main_stages. cbv zeta. intros H.
  destruct (calculate_magnitude x y z) as [m | e] eqn:E; [| discriminate].
  cbn [bind] in H.
  destruct (calculate_magnitude_elements _ _ _ _ E) as [L _]. rewrite <- L.
  destruct (script_coefficients design) as [b a]. cbn [fst snd] in H.
  destruct (usable_dec (b, a)) as [U | NU].
  2:{ rewrite apply_filter_unusable in H by exact NU. discriminate. }
  destruct m as [| m0 m'].
  { destruct (apply_filter_nil b a) as [En | En]; rewrite En in H; cbn [bind] in H;
      rewrite ?stft_analysis_empty in H; discriminate. }
  destruct (apply_filter_usable (m0 :: m') b a U ltac:(discriminate))
    as [filtered [Ef Lf]].
  rewrite Ef in H. cbn [bind] in H. rewrite <- Lf.
  destruct (stft_analysis filtered 100) as [f' | e] eqn:Es; [| discriminate].
  cbn [bind] in H. injection H as <- <-.
  destruct (stft_analysis_ok_inv _ _ _ Es) as [HN _].
  destruct (stft_analysis_index filtered HN) as [k [Hk Hr]].
  rewrite Hr in Es by lra. injection Es as <-.
  exists k. split; [exact Hk |].
  unfold bin_frequency, calculate_heart_rate.
  set (N := length filtered) in *.
  assert (H2 : (2 * k + 2 <= N)%nat).
  { pose proof (Nat.Div0.mul_div_le N 2). lia. }
  assert (HN0 : 0 < INR N) by (apply lt_0_INR; lia).
  assert (Hk1 : 1 <= INR k) by (apply (le_INR 1); lia).
  assert (Hk2 : 2 * INR k + 2 <= INR N).
  { apply le_INR in H2. rewrite plus_INR, mult_INR in H2. simpl INR in H2. lra. }
  assert (Eq : INR k * 100 / INR N * INR N = INR k * 100) by (field; lra).
  set (q := INR k * 100 / INR N) in *.
  split; [unfold q, Rdiv; ring |].
  repeat split; nra.
Qed.

Lemma main_report_range_witness :
  let N := broadcast_length
             (broadcast_length (length [0; 0; 0; 0]) (length [0; 0; 0; 0]))
             (length [0; 0; 0; 0]) in
  exists k,
    (1 <= k <= N / 2 - 1)%nat /\
    25 = 100 * INR k / INR N /\
    0 < 25 < 50 /\
    750 = 30 * 25 /\
    0 < 750 < 1500.
Proof.
  apply (main_report_range passthrough_design
           [0; 0; 0; 0] [0; 0; 0; 0] [0; 0; 0; 0] 25 750).
  exact main_flat_run.
Defined.

Lemma magnitude_zeros (N : nat) :
  calculate_magnitude (repeat 0 N) (repeat 0 N) (repeat 0 N) = Ok (repeat 0 N).
Proof.
  rewrite calculate_magnitude_same by reflexivity. f_equal.
  unfold np_sqrt, np_square.
  induction N as [| N IH]; [reflexivity |].
  cbn [repeat map map2]. rewrite IH.
  f_equal. replace (0 ^ 2 + 0 ^ 2 + 0 ^ 2) with 0 by ring. apply sqrt_0.
Qed.

Lemma apply_filter_zeros (b a : list R) (N : nat) :
  usable (b, a) -> (1 <= N)%nat ->
  apply_filter (repeat 0 N) b a = Ok (repeat 0 N).
Proof.
  intros [Hb [a0 [a_tl [Ea Ha]]]] HN. cbn [fst snd] in *. subst a.
  rewrite apply_filter_ok; try assumption.
  - f_equal. apply (lfilter_run_zeros b a_tl a0 N 0 0).
  - left. destruct N; [lia | discriminate].
Qed.

(** X15.  Readings that are all zero are not an error: with usable
    coefficients and [N >= 4] samples per channel the script body reports
    the frequency of bin 1, [100 / N], and the rate [3000 / N]. *)
Theorem main_at_rest (design : butter_design) (N : nat) :
  usable (script_coefficients design) -> (4 <= N)%nat ->
  main design (repeat 0 N) (repeat 0 N) (repeat 0 N) =
  Ok (100 / INR N, 3000 / INR N).
Proof.
  intros U HN. rewrite main_stages, magnitude_zeros. cbn [bind].
  destruct (script_coefficients design) as [b a]. cbn [fst snd].
  rewrite apply_filter_zeros by (exact U || lia). cbn [bind].
  rewrite stft_analysis_flat.
  - cbn [bind]. rewrite repeat_length. unfold calculate_heart_rate.
    f_equal. f_equal. unfold Rdiv. lra.
  - rewrite repeat_length. exact HN.
  - lra.
  - intros i _. unfold windowed_sample. rewrite nth_repeat. ring.
Qed.

Lemma usable_passthrough : usable (script_coefficients passthrough_design).
Proof.
  split; [discriminate |]. exists 1, []. split; [reflexivity | lra].
Qed.

Lemma main_at_rest_witness :
  main passthrough_design (repeat 0 6) (repeat 0 6) (repeat 0 6) =
  Ok (100 / INR 6, 3000 / INR 6).
Proof.
  apply (main_at_rest passthrough_design 6).
  - exact usable_passthrough.
  - lia.
Defined.

Lemma apply_filter_scale (k : R) (data b a : list R) :
  apply_filter (scale k data) b a =
  match apply_filter data b a with
  | Ok y => Ok (scale k y)
  | Raise e => Raise e
  end.
Proof.
  unfold apply_filter, lfilter.
  destruct b as [| b0 b]; [reflexivity |].
  destruct a as [| a0 a_tl]; [reflexivity |].
  destruct (Req_dec_T a0 0) as [_ | Ha]; [reflexivity |].
  destruct a_tl as [| a1 a_tl].
  - destruct data as [| x data]; [reflexivity |].
    cbn [scale map]. f_equal.
    apply (lfilter_run_scale k (b0 :: b) [] a0 (x :: data) [] []).
  - f_equal. apply (lfilter_run_scale k (b0 :: b) (a1 :: a_tl) a0 data [] []).
Qed.

(** X16.  The figures the script body reports do not depend on the unit or
    the sign of the readings: multiplying every reading of the three
    channels by the same non-zero factor leaves the result, failures
    included, unchanged. *)
Theorem main_unit_free (design : butter_design) (c : R) (x y z : list R) :
  c <> 0 ->
  main design (scale c x) (scale c y) (scale c z) = main design x y z.
Proof.
  intros Hc. rewrite !main_stages, calculate_magnitude_scale.
  destruct (calculate_magnitude x y z) as [m | e]; [| reflexivity].
  cbn [bind]. rewrite apply_filter_scale.
  destruct (apply_filter m _ _) as [filtered | e]; [| reflexivity].
  cbn [bind]. rewrite stft_analysis_scale by (apply Rabs_no_R0; exact Hc).
  reflexivity.
Qed.

Lemma main_unit_free_witness :
  main passthrough_design (scale 9.81 [1; 2; 3; 4]) (scale 9.81 [0; 1; 0; 1])
    (scale 9.81 [2; 2; 2; 2]) =
  main passthrough_design [1; 2; 3; 4] [0; 1; 0; 1] [2; 2; 2; 2].
Proof.
  apply (main_unit_free passthrough_design 9.81). lra.
Defined.

(** ** Loading the samples *)

Lemma read_sample_of (fos : String.string -> option R) (s : Loader.pyval)
  (t : R * R * R) :
  sample_of s t -> Loader.read_sample fos s = Loader.Done t.
Proof.
  destruct t as [[a b] c]. intros [items [-> [Hx [Hy Hz]]]]. cbn [fst snd] in *.
  unfold Loader.read_sample, Loader.getitem_key.
  rewrite Hx. cbn [Loader.load_bind Loader.pyfloat].
  rewrite Hy. cbn [Loader.load_bind Loader.pyfloat].
  rewrite Hz. reflexivity.
Qed.

Lemma load_loop_done (fos : String.string -> option R) (samples : list Loader.pyval)
  (triplets : list (R * R * R)) :
  Forall2 (fun s t => Loader.read_sample fos s = Loader.Done t) samples triplets ->
  forall xs ys zs,
    Loader.load_loop fos samples xs ys zs =
    Loader.Done (xs ++ map (fun t => fst (fst t)) triplets,
                 ys ++ map (fun t => snd (fst t)) triplets,
                 zs ++ map snd triplets).
Proof.
  induction 1 as [| s t samples triplets Hs _ IH]; intros xs ys zs.
  - cbn [Loader.load_loop map]. now rewrite !app_nil_r.
  - cbn [Loader.load_loop]. rewrite Hs. destruct t as [[a b] c].
    cbn [Loader.load_bind map fst snd]. rewrite IH, <- !app_assoc. reflexivity.
Qed.

Lemma load_loop_inv (fos : String.string -> option R) (samples : list Loader.pyval) :
  forall xs ys zs x y z,
    Loader.load_loop fos samples xs ys zs = Loader.Done (x, y, z) ->
    exists triplets,
      Forall2 (fun s t => Loader.read_sample fos s = Loader.Done t) samples triplets /\
      x = xs ++ map (fun t => fst (fst t)) triplets /\
      y = ys ++ map (fun t => snd (fst t)) triplets /\
      z = zs ++ map snd triplets.
Proof.
  induction samples as [| s samples IH]; intros xs ys zs x y z H.
  - cbn [Loader.load_loop] in H. injection H as <- <- <-.
    exists []. cbn [map]. rewrite !app_nil_r. repeat split. constructor.
  - cbn [Loader.load_loop] in H.
    destruct (Loader.read_sample fos s) as [[[a b] c] | e] eqn:Es; [| discriminate].
    cbn [Loader.load_bind] in H.
    destruct (IH _ _ _ _ _ _ H) as [triplets [F [-> [-> ->]]]].
    exists ((a, b, c) :: triplets). cbn [map fst snd].
    rewrite <- !app_assoc. repeat split. now constructor.
Qed.

Lemma load_loop_fail (fos : String.string -> option R)
  (good : list Loader.pyval) (bad : Loader.pyval) (rest : list Loader.pyval)
  (e : Loader.load_exn) :
  Forall (fun s => exists t, Loader.read_sample fos s = Loader.Done t) good ->
  Loader.read_sample fos bad = Loader.Fail e ->
  forall xs ys zs,
    Loader.load_loop fos (good ++ bad :: rest) xs ys zs = Loader.Fail e.
Proof.
  intros Hgood Hbad. induction Hgood as [| s good [[[a b] c] Hs] _ IH];
    intros xs ys zs.
  - cbn [app Loader.load_loop]. now rewrite Hbad.
  - cbn [app Loader.load_loop]. rewrite Hs. cbn [Loader.load_bind]. apply IH.
Qed.

(** X17.  A document whose first element is a list of samples, each a dict
    holding its three readings as floats under the keys x, y and z, loads
    as the three channels of those readings, in the order of the samples;
    the order of the keys, any other key of a sample and any element of
    the document after the first are ignored. *)
Theorem load_round_trip (fos : String.string -> option R)
  (samples others : list Loader.pyval) (triplets : list (R * R * R)) :
  Forall2 sample_of samples triplets ->
  Loader.load_and_process_data fos (Loader.PList (Loader.PList samples :: others)) =
  Loader.Done (map (fun t => fst (fst t)) triplets,
               map (fun t => snd (fst t)) triplets,
               map snd triplets).
Proof.
  intros F. unfold Loader.load_and_process_data.
  cbn [Loader.getitem_0 Loader.iterate Loader.load_bind].
  apply (load_loop_done fos samples triplets).
  induction F; constructor; [now apply read_sample_of | assumption].
Qed.

Lemma load_round_trip_witness :
  Loader.load_and_process_data (fun _ => None)
    (Loader.PList
       [Loader.PList
          [Loader.PDict [(Loader.key_z, Loader.PFloat 3);
                         (String.EmptyString, Loader.PNone);
                         (Loader.key_x, Loader.PFloat 1);
                         (Loader.key_y, Loader.PFloat 2)]];
        Loader.PNone]) =
  Loader.Done (map (fun t => fst (fst t)) [(1, 2, 3)],
               map (fun t => snd (fst t)) [(1, 2, 3)],
               map snd [(1, 2, 3)]).
Proof.
  apply (load_round_trip (fun _ => None) _ [Loader.PNone] [(1, 2, 3)]).
  constructor; [| constructor].
  eexists. split; [reflexivity |]. repeat split.
Defined.

(** X18.  Whatever the document, the three channels the loader returns
    have the same length, one entry per sample, so the magnitude reducer
    never fails on them and returns one magnitude per sample. *)
Theorem load_channels_aligned (fos : String.string -> option R) (data : Loader.pyval)
  (x y z : list R) :
  Loader.load_and_process_data fos data = Loader.Done (x, y, z) ->
  length x = length y /\ length y = length z /\
  exists m, calculate_magnitude x y z = Ok m /\ length m = length x.
Proof.
  unfold Loader.load_and_process_data. intros H.
  destruct (Loader.getitem_0 data) as [first | e]; [| discriminate].
  cbn [Loader.load_bind] in H.
  destruct (Loader.iterate first) as [samples | e]; [| discriminate].
  cbn [Loader.load_bind] in H.
  destruct (load_loop_inv _ _ _ _ _ _ _ _ H) as [triplets [_ [-> [-> ->]]]].
  cbn [app]. rewrite !length_map.
  split; [reflexivity |]. split; [reflexivity |].
  eexists. split.
  - apply calculate_magnitude_same; now rewrite !length_map.
  - unfold np_sqrt. rewrite length_map, !length_map2, !length_np_square, !length_map.
    lia.
Qed.

Lemma load_channels_aligned_witness :
  length [1] = length [2] /\ length [2] = length [3] /\
  exists m, calculate_magnitude [1] [2] [3] = Ok m /\ length m = length [1].
Proof.
  apply (load_channels_aligned (fun _ => None)
           (Loader.PList
              [Loader.PList
                 [Loader.PDict [(Loader.key_z, Loader.PFloat 3);
                                (Loader.key_x, Loader.PFloat 1);
                                (Loader.key_y, Loader.PFloat 2)]]])).
  reflexivity.
Defined.

Lemma load_samples_fail (fos : String.string -> option R)
  (good : list Loader.pyval) (bad : Loader.pyval) (rest others : list Loader.pyval)
  (e : Loader.load_exn) :
  Forall (fun s => exists t, Loader.read_sample fos s = Loader.Done t) good ->
  Loader.read_sample fos bad = Loader.Fail e ->
  Loader.load_and_process_data fos
    (Loader.PList (Loader.PList (good ++ bad :: rest) :: others)) = Loader.Fail e.
Proof.
  intros Hgood Hbad. unfold Loader.load_and_process_data.
  cbn [Loader.getitem_0 Loader.iterate Loader.load_bind].
  now apply load_loop_fail.
Qed.

(** X19.  Loading is all or nothing: the first sample that cannot be read
    decides the outcome, which is its exception, whatever the samples
    before it held and whatever comes after it. *)
Theorem load_first_failure (fos : String.string -> option R)
  (good : list Loader.pyval) (bad : Loader.pyval) (rest others : list Loader.pyval)
  (e : Loader.load_exn) :
  Forall (fun s => exists t, Loader.read_sample fos s = Loader.Done t) good ->
  Loader.read_sample fos bad = Loader.Fail e ->
  Loader.load_and_process_data fos
    (Loader.PList (Loader.PList (good ++ bad :: rest) :: others)) = Loader.Fail e.
Proof.
  apply load_samples_fail.
Qed.

Lemma load_first_failure_witness :
  Loader.load_and_process_data (fun _ => None)
    (Loader.PList
       [Loader.PList
          ([Loader.PDict [(Loader.key_x, Loader.PFloat 1);
                          (Loader.key_y, Loader.PFloat 2);
                          (Loader.key_z, Loader.PFloat 3)]]
           ++ Loader.PDict [(Loader.key_x, Loader.PFloat 1)] :: [Loader.PNone])]) =
  Loader.Fail Loader.KeyError.
Proof.
  apply (load_first_failure (fun _ => None) _ _ [Loader.PNone] []).
  - constructor; [| constructor]. eexists. reflexivity.
  - reflexivity.
Defined.

Lemma Forall_read_of (fos : String.string -> option R) (good : list Loader.pyval)
  (triplets : list (R * R * R)) :
  Forall2 sample_of good triplets ->
  Forall (fun s => exists t, Loader.read_sample fos s = Loader.Done t) good.
Proof.
  induction 1 as [| s t good triplets Hs _ IH]; constructor; [| exact IH].
  exists t. now apply read_sample_of.
Qed.

(** X20.  A document that is not a list with a first element cannot be
    loaded: an empty list or an empty string raises [IndexError], a dict
    raises [KeyError], a non-empty string raises [TypeError] at its first
    character, and [None], a bool or a number is not subscriptable; a
    first element that is [None], a bool or a number is not iterable. *)
Theorem load_document_shape (fos : String.string -> option R) :
  Loader.load_and_process_data fos (Loader.PList []) =
    Loader.Fail (Loader.Other IndexError) /\
  Loader.load_and_process_data fos (Loader.PStr String.EmptyString) =
    Loader.Fail (Loader.Other IndexError) /\
  (forall items,
     Loader.load_and_process_data fos (Loader.PDict items) = Loader.Fail Loader.KeyError) /\
  (forall c s,
     Loader.load_and_process_data fos (Loader.PStr (String.String c s)) =
     Loader.Fail Loader.TypeError) /\
  (forall data,
     data = Loader.PNone \/ (exists b, data = Loader.PBool b) \/
     (exists n, data = Loader.PInt n) \/ (exists r, data = Loader.PFloat r) ->
     Loader.load_and_process_data fos data = Loader.Fail Loader.TypeError /\
     forall others,
       Loader.load_and_process_data fos (Loader.PList (data :: others)) =
       Loader.Fail Loader.TypeError).
Proof.
  repeat split; try reflexivity.
  - destruct H as [-> | [[b ->] | [[n ->] | [r ->]]]]; reflexivity.
  - intros others. destruct H as [-> | [[b ->] | [[n ->] | [r ->]]]]; reflexivity.
Qed.

Lemma load_document_shape_witness :
  Loader.load_and_process_data (fun _ => None) (Loader.PInt 7) =
    Loader.Fail Loader.TypeError /\
  forall others,
    Loader.load_and_process_data (fun _ => None) (Loader.PList (Loader.PInt 7 :: others)) =
    Loader.Fail Loader.TypeError.
Proof.
  apply (load_document_shape (fun _ => None)).
  right. right. left. now exists 7%Z.
Defined.

(** X21.  A first element that is a string or a dict is iterated like a
    list of samples: when it is empty the loader returns three empty
    channels, and otherwise it raises [TypeError] at the first character
    or key, which is a string and not a sample.  An empty list of samples
    loads as three empty channels as well. *)
Theorem load_degenerate_samples (fos : String.string -> option R)
  (others : list Loader.pyval) :
  Loader.load_and_process_data fos (Loader.PList (Loader.PList [] :: others)) =
    Loader.Done ([], [], []) /\
  Loader.load_and_process_data fos
    (Loader.PList (Loader.PStr String.EmptyString :: others)) = Loader.Done ([], [], []) /\
  Loader.load_and_process_data fos (Loader.PList (Loader.PDict [] :: others)) =
    Loader.Done ([], [], []) /\
  (forall c s,
     Loader.load_and_process_data fos
       (Loader.PList (Loader.PStr (String.String c s) :: others)) =
     Loader.Fail Loader.TypeError) /\
  (forall kv items,
     Loader.load_and_process_data fos
       (Loader.PList (Loader.PDict (kv :: items) :: others)) =
     Loader.Fail Loader.TypeError).
Proof.
  repeat split; reflexivity.
Qed.

Lemma reading_fault_stops (fos : String.string -> option R)
  (items : list (String.string * Loader.pyval)) (k : String.string)
  (e : Loader.load_exn) (A : Type) (K : R -> Loader.load_result A) :
  reading_fault fos (Loader.dict_get items k) e ->
  Loader.load_bind (Loader.getitem_key (Loader.PDict items) k)
    (fun v => Loader.load_bind (Loader.pyfloat fos v) K) = Loader.Fail e.
Proof.
  intros F. unfold Loader.getitem_key.
  inversion F as [E | E | l E | d E | s Hs E | n Hn E]; subst e;
    cbn [Loader.load_bind Loader.pyfloat]; try reflexivity.
  - now rewrite Hs.
  - apply Z.ltb_ge in Hn. now rewrite Hn.
Qed.

Lemma reading_converts (fos : String.string -> option R)
  (items : list (String.string * Loader.pyval)) (k : String.string)
  (v : Loader.pyval) (a : R) (A : Type) (K : R -> Loader.load_result A) :
  Loader.dict_get items k = Some v -> Loader.pyfloat fos v = Loader.Done a ->
  Loader.load_bind (Loader.getitem_key (Loader.PDict items) k)
    (fun v => Loader.load_bind (Loader.pyfloat fos v) K) = K a.
Proof.
  intros Hk Hv. unfold Loader.getitem_key. rewrite Hk.
  cbn [Loader.load_bind]. rewrite Hv. reflexivity.
Qed.

(** X22.  A sample with a reading at fault stops the load, after any
    number of good samples, with the exception of the first reading at
    fault in the order x, y, z: a missing key raises [KeyError], a reading
    that is [None], a list or a dict raises [TypeError], a string that is
    not a number raises [ValueError], and an int beyond the range of the
    floats raises [OverflowError].  What the later readings of that sample
    and the later samples hold does not matter. *)
Theorem load_malformed_sample (fos : String.string -> option R)
  (good : list Loader.pyval) (triplets : list (R * R * R))
  (items : list (String.string * Loader.pyval)) (rest others : list Loader.pyval)
  (e : Loader.load_exn) :
  Forall2 sample_of good triplets ->
  let doc := Loader.PList (Loader.PList (good ++ Loader.PDict items :: rest) :: others) in
  (reading_fault fos (Loader.dict_get items Loader.key_x) e ->
   Loader.load_and_process_data fos doc = Loader.Fail e) /\
  (forall vx a,
     Loader.dict_get items Loader.key_x = Some vx ->
     Loader.pyfloat fos vx = Loader.Done a ->
     reading_fault fos (Loader.dict_get items Loader.key_y) e ->
     Loader.load_and_process_data fos doc = Loader.Fail e) /\
  (forall vx a vy b,
     Loader.dict_get items Loader.key_x = Some vx ->
     Loader.pyfloat fos vx = Loader.Done a ->
     Loader.dict_get items Loader.key_y = Some vy ->
     Loader.pyfloat fos vy = Loader.Done b ->
     reading_fault fos (Loader.dict_get items Loader.key_z) e ->
     Loader.load_and_process_data fos doc = Loader.Fail e).
Proof.
  intros F. cbv zeta.
  pose proof (Forall_read_of fos good triplets F) as G.
  split; [| split].
  - intros Fx. apply load_samples_fail; [exact G |].
    unfold Loader.read_sample. now apply reading_fault_stops.
  - intros vx a Hx Ha Fy. apply load_samples_fail; [exact G |].
    unfold Loader.read_sample.
    rewrite (reading_converts fos items Loader.key_x vx a) by assumption.
    now apply reading_fault_stops.
  - intros vx a vy b Hx Ha Hy Hb Fz. apply load_samples_fail; [exact G |].
    unfold Loader.read_sample.
    rewrite (reading_converts fos items Loader.key_x vx a) by assumption.
    rewrite (reading_converts fos items Loader.key_y vy b) by assumption.
    now apply reading_fault_stops.
Qed.

Lemma load_malformed_sample_witness :
  Loader.load_and_process_data (fun _ => None)
    (Loader.PList
       [Loader.PList
          ([Loader.PDict [(Loader.key_x, Loader.PFloat 1);
                          (Loader.key_y, Loader.PFloat 2);
                          (Loader.key_z, Loader.PFloat 3)];
            Loader.PDict [(Loader.key_z, Loader.PFloat 6);
                          (Loader.key_y, Loader.PFloat 5);
                          (Loader.key_x, Loader.PFloat 4)]]
           ++ Loader.PDict [(Loader.key_x, Loader.PInt 7);
                            (Loader.key_y, Loader.PNone)]
              :: [Loader.PNone])]) =
  Loader.Fail Loader.TypeError.
Proof.
  refine (proj1 (proj2
    (load_malformed_sample (fun _ => None)
       [Loader.PDict [(Loader.key_x, Loader.PFloat 1);
                      (Loader.key_y, Loader.PFloat 2);
                      (Loader.key_z, Loader.PFloat 3)];
        Loader.PDict [(Loader.key_z, Loader.PFloat 6);
                      (Loader.key_y, Loader.PFloat 5);
                      (Loader.key_x, Loader.PFloat 4)]]
       [(1, 2, 3); (4, 5, 6)]
       [(Loader.key_x, Loader.PInt 7); (Loader.key_y, Loader.PNone)]
       [Loader.PNone] [] Loader.TypeError _))
    (Loader.PInt 7) (IZR 7) _ _ _).
  - constructor; [| constructor; [| constructor]];
      eexists; (split; [reflexivity | repeat split]).
  - reflexivity.
  - reflexivity.
  - apply fault_none.
Defined.

Lemma pyfloat_int (fos : String.string -> option R) (n : Z) :
  (Z.abs n < Loader.float_int_bound)%Z ->
  Loader.pyfloat fos (Loader.PInt n) = Loader.Done (IZR n).
Proof.
  intros H. cbn [Loader.pyfloat]. apply Z.ltb_lt in H. now rewrite H.
Qed.

(** X23.  A reading need not be a float: an int within the range of the
    floats is converted to the same number, [True] and [False] to 1 and 0,
    and a string to the number [float] reads in it; an int beyond that
    range raises [OverflowError]. *)
Theorem load_reading_conversions (fos : String.string -> option R)
  (n : Z) (b : bool) (s : String.string) (r : R) (others : list Loader.pyval) :
  fos s = Some r ->
  let doc :=
    Loader.PList
      (Loader.PList
         [Loader.PDict [(Loader.key_x, Loader.PInt n);
                        (Loader.key_y, Loader.PBool b);
                        (Loader.key_z, Loader.PStr s)]] :: others) in
  ((Z.abs n < Loader.float_int_bound)%Z ->
   Loader.load_and_process_data fos doc =
   Loader.Done ([IZR n], [if b then 1 else 0], [r])) /\
  ((Loader.float_int_bound <= Z.abs n)%Z ->
   Loader.load_and_process_data fos doc = Loader.Fail Loader.OverflowError).
Proof.
  intros Hs. cbv zeta. unfold Loader.load_and_process_data.
  cbn [Loader.getitem_0 Loader.iterate Loader.load_bind Loader.load_loop].
  set (items := [(Loader.key_x, Loader.PInt n); (Loader.key_y, Loader.PBool b);
                 (Loader.key_z, Loader.PStr s)]).
  assert (Hx : Loader.dict_get items Loader.key_x = Some (Loader.PInt n)) by reflexivity.
  assert (Hy : Loader.dict_get items Loader.key_y = Some (Loader.PBool b)) by reflexivity.
  assert (Hz : Loader.dict_get items Loader.key_z = Some (Loader.PStr s)) by reflexivity.
  unfold Loader.read_sample. split.
  - intros Hn.
    rewrite (reading_converts fos items Loader.key_x _ (IZR n) _ _ Hx (pyfloat_int fos n Hn)).
    rewrite (reading_converts fos items Loader.key_y _ (if b then 1 else 0) _ _ Hy eq_refl).
    rewrite (reading_converts fos items Loader.key_z _ r _ _ Hz)
      by (cbn [Loader.pyfloat]; now rewrite Hs).
    reflexivity.
  - intros Hn.
    rewrite (reading_fault_stops fos items Loader.key_x Loader.OverflowError);
      [reflexivity |].
    rewrite Hx. now apply fault_int.
Qed.

Lemma load_reading_conversions_witness :
  Loader.load_and_process_data Loader.float_of_text_2_5
    (Loader.PList
       (Loader.PList
          [Loader.PDict [(Loader.key_x, Loader.PInt 4);
                         (Loader.key_y, Loader.PBool true);
                         (Loader.key_z, Loader.PStr Loader.text_2_5)]] :: [])) =
  Loader.Done ([IZR 4], [if true then 1 else 0], [2.5]).
Proof.
  apply (proj1 (load_reading_conversions Loader.float_of_text_2_5 4 true
                  Loader.text_2_5 2.5 [] eq_refl)).
  apply Z.ltb_lt. reflexivity.
Defined.

(** ** The script on a document *)

Lemma bin_frequency_range (N k : nat) (fs : R) :
  (1 <= k <= N / 2 - 1)%nat -> 0 < fs ->
  0 < bin_frequency N fs k < fs / 2.
Proof.
  intros Hk Hfs. unfold bin_frequency.
  assert (H2 : (2 * k + 2 <= N)%nat).
  { pose proof (Nat.Div0.mul_div_le N 2). lia. }
  assert (HN0 : 0 < INR N) by (apply lt_0_INR; lia).
  assert (Hk1 : 1 <= INR k) by (apply (le_INR 1); lia).
  assert (Hk2 : 2 * INR k + 2 <= INR N).
  { apply le_INR in H2. rewrite plus_INR, mult_INR in H2. simpl INR in H2. lra. }
  assert (Eq : INR k * fs / INR N * INR N = INR k * fs) by (field; lra).
  set (q := INR k * fs / INR N) in *.
  split; nra.
Qed.

(** X24.  On a document the script fails with the loader's exception when
    the loader fails.  When the loader returns [N] samples, the script
    reports a frequency strictly between 0 and 50 Hz and thirty times it
    as the rate if [N >= 4] and the designed coefficients are usable, and
    fails with [ValueError] otherwise; the channel lengths never make it
    fail. *)
Theorem script_outcome (design : butter_design) (fos : String.string -> option R)
  (data : Loader.pyval) :
  (forall e, Loader.load_and_process_data fos data = Loader.Fail e ->
     Loader.script design fos data = Loader.Fail e) /\
  (forall x y z, Loader.load_and_process_data fos data = Loader.Done (x, y, z) ->
     (usable (script_coefficients design) -> (4 <= length x)%nat ->
      exists f, Loader.script design fos data = Loader.Done (f, 30 * f) /\ 0 < f < 50) /\
     (~ (usable (script_coefficients design) /\ (4 <= length x)%nat) ->
      Loader.script design fos data = Loader.Fail (Loader.Other ValueError))).
Proof.
  unfold Loader.script. split.
  - intros e ->. reflexivity.
  - intros x y z H. rewrite H. cbn [Loader.load_bind].
    assert (L : length x = length y /\ length y = length z).
    { unfold Loader.load_and_process_data in H.
      destruct (Loader.getitem_0 data) as [first | e]; [| discriminate].
      cbn [Loader.load_bind] in H.
      destruct (Loader.iterate first) as [samples | e]; [| discriminate].
      cbn [Loader.load_bind] in H.
      destruct (load_loop_inv _ _ _ _ _ _ _ _ H) as [triplets [_ [-> [-> ->]]]].
      cbn [app]. now rewrite !length_map. }
    destruct L as [Lxy Lyz].
    rewrite main_stages, calculate_magnitude_same by assumption. cbn [bind].
    set (m := np_sqrt _).
    assert (Lm : length m = length x).
    { unfold m, np_sqrt. rewrite length_map, !length_map2, !length_np_square. lia. }
    destruct (script_coefficients design) as [b a]. cbn [fst snd].
    split.
    + intros U HN.
      assert (Hm : m <> []).
      { intros E. rewrite E in Lm. cbn [length] in Lm. lia. }
      destruct (apply_filter_usable m b a U Hm) as [filtered [Ef Lf]].
      rewrite Ef. cbn [bind].
      destruct (stft_analysis_index filtered ltac:(lia)) as [k [Hk Hr]].
      rewrite Hr by lra. cbn [bind Loader.lift].
      exists (bin_frequency (length filtered) 100 k). split.
      * f_equal. f_equal. unfold calculate_heart_rate. lra.
      * pose proof (bin_frequency_range (length filtered) k 100 Hk ltac:(lra)). lra.
    + intros NU. destruct (usable_dec (b, a)) as [U | NU'].
      * destruct (list_eq_nil_dec m) as [Em | Hm].
        { rewrite Em. destruct (apply_filter_nil b a) as [En | En]; rewrite En;
            cbn [bind]; rewrite ?stft_analysis_empty; reflexivity. }
        destruct (apply_filter_usable m b a U Hm) as [filtered [Ef Lf]].
        rewrite Ef. cbn [bind].
        rewrite stft_analysis_short; [reflexivity | lra |].
        destruct (Nat.lt_ge_cases (length filtered) 4) as [Hlt | Hge]; [exact Hlt |].
        exfalso. apply NU. split; [exact U | lia].
      * rewrite apply_filter_unusable by exact NU'. reflexivity.
Qed.

Lemma script_outcome_witness :
  let s0 := Loader.PDict [(Loader.key_x, Loader.PFloat 0);
                          (Loader.key_y, Loader.PFloat 0);
                          (Loader.key_z, Loader.PFloat 0)] in
  exists f,
    Loader.script passthrough_design (fun _ => None)
      (Loader.PList [Loader.PList [s0; s0; s0; s0]]) = Loader.Done (f, 30 * f) /\
    0 < f < 50.
Proof.
  cbv zeta.
  apply (proj2 (script_outcome passthrough_design (fun _ => None) _)
           [0; 0; 0; 0] [0; 0; 0; 0] [0; 0; 0; 0]).
  - reflexivity.
  - exact usable_passthrough.
  - simpl. lia.
Defined.

(** ** Time reversal *)

Lemma sum_below_plus (f g : nat -> R) (n : nat) :
  sum_below (fun i => f i + g i) n = sum_below f n + sum_below g n.
Proof.
  induction n as [| n IH]; simpl.
  - ring.
  - rewrite IH. ring.
Qed.

Lemma sum_below_rev (f : nat -> R) (n : nat) :
  sum_below f n = sum_below (fun i => f (n - 1 - i)%nat) n.
Proof.
  induction n as [| n IH]; [reflexivity |].
  rewrite (sum_below_shift (fun i => f (S n - 1 - i)%nat) n).
  change (sum_below f (S n)) with (sum_below f n + f n). rewrite IH.
  replace (S n - 1 - 0)%nat with n by lia.
  rewrite Rplus_comm. f_equal.
  apply sum_below_ext. intros i Hi. f_equal. lia.
Qed.

Lemma map2_app {A B C : Type} (f : A -> B -> C) (u1 u2 : list A) (v1 v2 : list B) :
  length u1 = length v1 ->
  map2 f (u1 ++ u2) (v1 ++ v2) = map2 f u1 v1 ++ map2 f u2 v2.
Proof.
  revert v1. induction u1 as [| a u1 IH]; intros [| b v1] E; try discriminate.
  - reflexivity.
  - cbn [app map2]. rewrite IH by (simpl in E; lia). reflexivity.
Qed.

Lemma map2_rev {A B C : Type} (f : A -> B -> C) (u : list A) (v : list B) :
  length u = length v -> map2 f (rev u) (rev v) = rev (map2 f u v).
Proof.
  revert v. induction u as [| a u IH]; intros [| b v] E; try discriminate.
  - reflexivity.
  - cbn [rev map2]. rewrite map2_app by (rewrite !length_rev; simpl in E; lia).
    rewrite IH by (simpl in E; lia). reflexivity.
Qed.

Lemma hamming_taper_symmetric (N i : nat) :
  (2 <= N)%nat -> (i < N)%nat ->
  hamming_taper N (N - 1 - i) = hamming_taper N i.
Proof.
  intros HN Hi. unfold hamming_taper.
  assert (HM : INR N - 1 <> 0).
  { assert (2 <= INR N) by (apply (le_INR 2); exact HN). lra. }
  replace (N - 1 - i)%nat with (N - S i)%nat by lia.
  rewrite minus_INR by lia. rewrite S_INR.
  replace (2 * PI * (INR N - (INR i + 1)) / (INR N - 1))
    with (2 * PI - 2 * PI * INR i / (INR N - 1)) by (field; exact HM).
  rewrite cos_minus, cos_2PI, sin_2PI. f_equal. ring.
Qed.

(** The window is the same read from either end. *)
Lemma rev_hamming (N : nat) : rev (hamming N) = hamming N.
Proof.
  destruct (Nat.lt_ge_cases N 2) as [Hlt | Hge].
  - destruct N as [| [| N]]; [reflexivity | reflexivity | lia].
  - apply (nth_ext _ _ 0 0); [apply length_rev |].
    intros i Hi. rewrite length_rev, length_hamming in Hi.
    rewrite rev_nth by (rewrite length_hamming; exact Hi).
    rewrite length_hamming.
    rewrite !nth_hamming by lia.
    replace (N - S i)%nat with (N - 1 - i)%nat by lia.
    now apply hamming_taper_symmetric.
Qed.

(** Reversing a sequence changes the phase of its transform, not its
    magnitude. *)
Lemma Cabs_dft_bin_rev (u : list R) (k : nat) :
  Cabs (dft_bin (rev u) k) = Cabs (dft_bin u k).
Proof.
  destruct u as [| u0 u']; [reflexivity |].
  set (u := u0 :: u').
  assert (HN : INR (length u) <> 0) by (apply not_0_INR; discriminate).
  unfold dft_bin, Cabs. rewrite !Csum_map2_seq, length_rev.
  cbn [fst snd Cscale Cexp_i]. set (N := length u) in *.
  set (al := fun m : nat => 2 * PI * INR k * INR m / INR N).
  set (be := 2 * PI * INR k / INR N).
  set (A := sum_below (fun m => nth m u 0 * cos (al m)) N).
  set (B := sum_below (fun m => nth m u 0 * sin (al m)) N).
  assert (Hang : forall i, (i < N)%nat ->
            - (2 * PI * INR k * INR (0 + (N - 1 - i)) / INR N) + 2 * INR k * PI
            = al i + be).
  { intros i Hi. cbn [Nat.add]. unfold al, be.
    replace (N - 1 - i)%nat with (N - S i)%nat by lia.
    rewrite minus_INR by lia. rewrite S_INR. field. exact HN. }
  assert (ERe : sum_below
            (fun n => nth n (rev u) 0 * cos (- (2 * PI * INR k * INR (0 + n) / INR N))) N
            = cos be * A - sin be * B).
  { rewrite sum_below_rev.
    rewrite (sum_below_ext _
      (fun i => cos be * (nth i u 0 * cos (al i)) + - sin be * (nth i u 0 * sin (al i)))).
    - rewrite sum_below_plus, !sum_below_scale. fold A B. ring.
    - intros i Hi. rewrite rev_nth by (fold N; lia). fold N.
      replace (N - S (N - 1 - i))%nat with i by lia.
      rewrite <- (cos_period _ k), Hang by exact Hi.
      rewrite cos_plus. ring. }
  assert (EIm : sum_below
            (fun n => nth n (rev u) 0 * sin (- (2 * PI * INR k * INR (0 + n) / INR N))) N
            = cos be * B + sin be * A).
  { rewrite sum_below_rev.
    rewrite (sum_below_ext _
      (fun i => cos be * (nth i u 0 * sin (al i)) + sin be * (nth i u 0 * cos (al i)))).
    - rewrite sum_below_plus, !sum_below_scale. fold A B. ring.
    - intros i Hi. rewrite rev_nth by (fold N; lia). fold N.
      replace (N - S (N - 1 - i))%nat with i by lia.
      rewrite <- (sin_period _ k), Hang by exact Hi.
      rewrite sin_plus. ring. }
  assert (ERe0 : sum_below
            (fun n => nth n u 0 * cos (- (2 * PI * INR k * INR (0 + n) / INR N))) N = A).
  { unfold A. apply sum_below_ext. intros i _. cbn [Nat.add]. now rewrite cos_neg. }
  assert (EIm0 : sum_below
            (fun n => nth n u 0 * sin (- (2 * PI * INR k * INR (0 + n) / INR N))) N = - B).
  { unfold B. rewrite <- sum_below_opp. apply sum_below_ext. intros i _.
    cbn [Nat.add]. rewrite sin_neg. unfold al. ring. }
  rewrite ERe, EIm, ERe0, EIm0. f_equal.
  pose proof (sin2_cos2 be) as H1. unfold Rsqr in H1.
  replace ((cos be * A - sin be * B) ^ 2 + (cos be * B + sin be * A) ^ 2)
    with ((sin be * sin be + cos be * cos be) * (A ^ 2 + B ^ 2)) by ring.
  rewrite H1. ring.
Qed.

Lemma windowed_rev (data : list R) :
  map2 Rmult (rev data) (hamming (length data)) =
  rev (map2 Rmult data (hamming (length data))).
Proof.
  rewrite <- (rev_hamming (length data)) at 1.
  apply map2_rev. now rewrite length_hamming.
Qed.

Lemma stft_analysis_rev (data : list R) (fs : R) :
  stft_analysis (rev data) fs = stft_analysis data fs.
Proof.
  destruct data as [| x data]; [reflexivity |].
  assert (Hd : x :: data <> []) by discriminate.
  assert (Hd' : rev (x :: data) <> []).
  { intros E. apply (f_equal (@length R)) in E. rewrite length_rev in E. discriminate. }
  destruct (Req_dec_T fs 0) as [-> | Hfs].
  - now rewrite !stft_analysis_zero_rate.
  - rewrite !stft_analysis_search by assumption.
    rewrite length_rev. set (N := length (x :: data)).
    rewrite (map_ext
      (fun k => Cabs (dft_bin (map2 Rmult (rev (x :: data)) (hamming N)) k))
      (fun k => Cabs (dft_bin (map2 Rmult (x :: data) (hamming N)) k)))
      by (intros k; unfold N; rewrite windowed_rev; apply Cabs_dft_bin_rev).
    reflexivity.
Qed.

(** X25.  The dominant frequency does not depend on the direction of
    time: the signal read backwards gives the same result, failures
    included. *)
Theorem stft_analysis_time_reversal (data : list R) (fs : R) :
  stft_analysis (rev data) fs = stft_analysis data fs.
Proof. apply stft_analysis_rev. Qed.

Lemma stft_analysis_failures_witness :
  stft_analysis [1; 2] 0 <> Raise IndexError /\
  (stft_analysis [1; 2] 0 = Raise ZeroDivisionError <-> [1; 2] <> [] /\ 0 = 0) /\
  ([1; 2] = [] -> stft_analysis [1; 2] 0 = Raise ValueError).
Proof.
  apply (stft_analysis_failures [1; 2] 0).
Defined.

(** ** Coefficients of one entry *)

Lemma lfilter_run_pure_gain (g a0 : R) (data xh yh : list R) :
  lfilter_run [g] [] a0 xh yh data = scale (g / a0) data.
Proof.
  revert xh yh. induction data as [| x rest IH]; intros xh yh; [reflexivity |].
  cbn [lfilter_run dot scale map]. fold (scale (g / a0) rest).
  rewrite IH. f_equal. unfold Rdiv. ring.
Qed.

(** X26.  With one feed-forward coefficient [g] and one feedback
    coefficient [a0], as an order-0 design gives, the filter has no
    memory: every sample of a non-empty signal is multiplied by [g / a0].
    On the empty signal it raises [ValueError]. *)
Theorem apply_filter_pure_gain (g a0 : R) (data : list R) :
  a0 <> 0 ->
  (data <> [] -> apply_filter data [g] [a0] = Ok (scale (g / a0) data)) /\
  apply_filter [] [g] [a0] = Raise ValueError.
Proof.
  intros Ha. split.
  - intros Hd. rewrite apply_filter_ok by (discriminate || exact Ha || now left).
    f_equal. apply lfilter_run_pure_gain.
  - apply apply_filter_empty_single.
Qed.

Lemma apply_filter_pure_gain_witness :
  apply_filter [1; 2; 3] [1] [1] = Ok (scale (1 / 1) [1; 2; 3]).
Proof.
  apply (apply_filter_pure_gain 1 1 [1; 2; 3]).
  - lra.
  - discriminate.
Defined.
